(** * The in-memory limiter of stream-replicator (limiter/memory/memory.go)

    A shallow embedding of [Limiter] and of its operations, and the
    properties of the decision, recording, persistence and scrubbing code.

    Conventions of the embedding:
    - a [time.Time] is an instant on one time line, counted in nanoseconds
      ([Z]); [Time.Add] is exact on it and [Time.Before] is [<];
    - a [time.Duration] is an [int64] count of nanoseconds; the products and
      differences the code computes on durations wrap around as Go's do;
    - [map[string]time.Time] is a [gmap string Z];
    - [time.Now()] is an argument of the operation that reads the clock;
    - the mutex and the logger have no effect on the values computed and are
      left out; the Prometheus counters are kept as a record of naturals;
    - the file system is a finite map from paths to contents together with
      the list of the calls made on it; each call can fail, as decided by an
      oracle given to the operation. *)

From Stdlib Require Import ZArith Lia.
From stdpp Require Import base gmap strings list fin_maps.

Local Open Scope Z_scope.

Module memory.

(** ** Durations and instants *)

Abbreviation Time := Z.
Abbreviation Duration := Z.
Abbreviation Bytes := (list Byte.byte).

Definition MinInt64 : Z := - 2 ^ 63.
Definition MaxInt64 : Z := 2 ^ 63 - 1.

(** The values of an [int64]. *)
Definition int64 (z : Z) : Prop := MinInt64 ≤ z ≤ MaxInt64.

(** Two's complement wrap-around of a mathematical integer into [int64]. *)
Definition wrap64 (z : Z) : Z := (z + 2 ^ 63) mod 2 ^ 64 - 2 ^ 63.

Definition Duration_mul (a b : Duration) : Duration := wrap64 (a * b).
Definition Duration_sub (a b : Duration) : Duration := wrap64 (a - b).

Definition Nanosecond : Duration := 1.
Definition Second : Duration := 1000000000 * Nanosecond.
Definition Minute : Duration := 60 * Second.

Definition Time_Add (t : Time) (d : Duration) : Time := t + d.
Definition Time_Before (t u : Time) : bool := bool_decide (t < u).

(** ** Errors and results *)

Definition error := string.

Inductive result (A : Type) : Type :=
  | Ok (a : A)
  | Err (e : error).
Arguments Ok {A} a.
Arguments Err {A} e.

(** ** The limiter *)

Record Limiter := mkLimiter {
  key : string;
  age : Duration;
  topic : string;
  statefile : string;
  seen : gmap string Z
}.

Definition set_seen (s : gmap string Z) (m : Limiter) : Limiter :=
  {| key := key m; age := age m; topic := topic m;
     statefile := statefile m; seen := s |}.

(** The three counters of the limiter, for the labels of one limiter. *)
Record Metrics := mkMetrics {
  passedCtr : nat;
  skippedCtr : nat;
  errCtr : nat
}.

Definition inc_passed (c : Metrics) : Metrics :=
  {| passedCtr := S (passedCtr c); skippedCtr := skippedCtr c; errCtr := errCtr c |}.
Definition inc_skipped (c : Metrics) : Metrics :=
  {| passedCtr := passedCtr c; skippedCtr := S (skippedCtr c); errCtr := errCtr c |}.
Definition inc_err (c : Metrics) : Metrics :=
  {| passedCtr := passedCtr c; skippedCtr := skippedCtr c; errCtr := S (errCtr c) |}.

(** [stan.Msg], of which the limiter reads [Data] only. *)
Record Msg := mkMsg { Data : Bytes }.

(** [shouldProcess], with the reading of the clock as [now]. *)
Definition shouldProcess (m : Limiter) (now : Time) (value : string) : bool :=
  if decide (value = "") then true
  else
    match seen m !! value with
    | None => true
    | Some t =>
        let oldest := Time_Add now (Duration_mul (-1) (age m)) in
        if Time_Before t oldest then true else false
    end.

(** ** The file system

    [files] maps a path to the content of the file there; [calls] lists the
    calls made, the latest first.  A call fails when the oracle says so or
    when the state of the file system makes it fail. *)

Inductive io_call :=
  | CallReadFile (name : string)
  | CallTempFile (dir pattern : string)
  | CallWrite (name : string) (n : nat)
  | CallClose (name : string)
  | CallRename (oldpath newpath : string).

Record FS := mkFS {
  files : gmap string (list Byte.byte);
  calls : list io_call
}.

Definition called (c : io_call) (fs : FS) : FS :=
  {| files := files fs; calls := c :: calls fs |}.

Definition set_files (fl : gmap string (list Byte.byte)) (fs : FS) : FS :=
  {| files := fl; calls := calls fs |}.

(** [ioutil.ReadFile]: the whole content, or an error; a missing file is an
    error (ENOENT). *)
Definition ioutil_ReadFile (fault : option error) (name : string) (fs : FS)
  : FS * result Bytes :=
  let fs' := called (CallReadFile name) fs in
  match fault with
  | Some e => (fs', Err e)
  | None =>
      match files fs !! name with
      | Some d => (fs', Ok d)
      | None => (fs', Err ("open " +:+ name +:+ ": no such file or directory"))
      end
  end.

(** [ioutil.TempFile dir pattern]: the oracle gives the path that the call
    settles on; the file is opened with O_CREATE|O_EXCL, so that a path in
    use is never handed out. *)
Definition ioutil_TempFile (outcome : result string) (dir pattern : string) (fs : FS)
  : FS * result string :=
  let fs' := called (CallTempFile dir pattern) fs in
  match outcome with
  | Err e => (fs', Err e)
  | Ok name =>
      match files fs !! name with
      | Some _ => (fs', Err ("open " +:+ name +:+ ": file exists"))
      | None => (set_files (<[name := []]> (files fs)) fs', Ok name)
      end
  end.

(** [File.Write] (package os): all of [b] is appended and its length returned, or
    the call fails after the first [n] bytes of it. *)
Definition File_Write (fault : option (nat * error)) (name : string) (b : Bytes) (fs : FS)
  : FS * result nat :=
  let old := default [] (files fs !! name) in
  match fault with
  | Some (n, e) =>
      (set_files (<[name := old ++ take n b]> (files fs)) (called (CallWrite name n) fs),
       Err e)
  | None =>
      (set_files (<[name := old ++ b]> (files fs)) (called (CallWrite name (length b)) fs),
       Ok (length b))
  end.

Definition File_Close (fault : option error) (name : string) (fs : FS)
  : FS * option error :=
  (called (CallClose name) fs, fault).

(** [os.Rename]: atomic; when it fails nothing has changed, when it succeeds
    the new path holds the content of the old one, which is gone. *)
Definition os_Rename (fault : option error) (oldpath newpath : string) (fs : FS)
  : FS * option error :=
  let fs' := called (CallRename oldpath newpath) fs in
  match fault with
  | Some e => (fs', Some e)
  | None =>
      if decide (newpath = "") then
        (fs', Some ("rename " +:+ oldpath +:+ " : no such file or directory"))
      else
        match files fs !! oldpath with
        | None => (fs', Some ("rename " +:+ oldpath +:+ ": no such file or directory"))
        | Some d => (set_files (<[newpath := d]> (delete oldpath (files fs))) fs', None)
        end
  end.

(** What the environment decides during one [writeCache]. *)
Record WriteOracle := mkWriteOracle {
  tempfile_outcome : result string;
  write_fault : option (nat * error);
  close_fault : option error;
  rename_fault : option error
}.

(** ** Entries older than the kill time

    The loop of [scrub] and of [readCache]: every entry of the map is
    visited once and deleted from the map when it is before [killtime]. *)
Definition scrub_entries (killtime : Time) (s : gmap string Z) : gmap string Z :=
  map_fold (λ i t acc, if Time_Before t killtime then delete i acc else acc) s s.

(** [time.Now().Add((-1 * m.age) - (10 * time.Minute))] *)
Definition killtime (m : Limiter) (now : Time) : Time :=
  Time_Add now (Duration_sub (Duration_mul (-1) (age m)) (Duration_mul 10 Minute)).

Definition scrub (m : Limiter) (now : Time) : Limiter :=
  set_seen (scrub_entries (killtime m now) (seen m)) m.

(** The pruning rule in the words of the specification: an entry stays
    unless its age, [now - t], exceeds the window plus ten minutes. *)
Definition prune_spec (window : Duration) (now : Time) (s : gmap string Z)
  : gmap string Z :=
  filter (λ kt, now - kt.2 ≤ window + 10 * Minute) s.

(** No stored instant is after [now]. *)
Definition no_future (now : Time) (s : gmap string Z) : Prop :=
  map_Forall (λ _ t, t ≤ now) s.

(** ** The background loops

    [scrubber] and [cacher] are each a [for] around a [select] on the
    channel of a ticker and on [ctx.Done()].  What the
    [select] takes, turn after turn, is a list given to the loop; with each
    turn comes what the turn reads from outside the loop: the clock, the
    store as the other goroutines have left it, what the file system
    decides.  A list that ends before [ctx.Done()] was taken leaves the loop
    waiting; the flag returned says whether the loop has returned. *)
Inductive selected (T D : Type) : Type :=
  | ticker_C (t : T)
  | ctx_Done (d : D).
Arguments ticker_C {T D} t.
Arguments ctx_Done {T D} d.

(** [scrubber]: a turn of the ticker runs [scrub] at the time the clock
    shows; on [ctx.Done()] the loop returns at once.  The store is the one
    the loop left at its last turn. *)
Fixpoint scrubber (m : Limiter) (turns : list (selected Z unit)) : Limiter * bool :=
  match turns with
  | [] => (m, false)
  | ticker_C now :: rest => scrubber (scrub m now) rest
  | ctx_Done _ :: _ => (m, true)
  end.

(** ** Calls that do not overlap

    What is done to a limiter when no two calls of [ProcessAndRecord] overlap
    and the scrubber runs between them: a list of calls and of scrubs, each
    with the times that it reads on the clock. *)
Inductive limiter_op :=
  | OpProcessAndRecord (msg : Msg) (f : Msg → bool → option error)
      (now_decide now_record : Z)
  | OpScrub (now : Z).

(** The times read by an operation, in the order in which it reads them. *)
Definition op_times (o : limiter_op) : list Z :=
  match o with
  | OpProcessAndRecord _ _ now_decide now_record => [now_decide; now_record]
  | OpScrub now => [now]
  end.

(** ** A reference codec

    A small self-delimiting encoding of a map of instants, which stands for
    [encoding/json] where a concrete codec is needed. *)
Module RefCodec.

Definition put (l : Bytes) : Bytes :=
  flat_map (λ b, [Byte.x01; b]) l ++ [Byte.x00].

Fixpoint get (d : Bytes) : option (Bytes * Bytes) :=
  match d with
  | Byte.x00 :: r => Some ([], r)
  | Byte.x01 :: b :: r =>
      match get r with
      | Some (l, r') => Some (b :: l, r')
      | None => None
      end
  | _ => None
  end.

Fixpoint pos_bits (p : positive) : Bytes :=
  match p with
  | xH => []
  | xO q => Byte.x00 :: pos_bits q
  | xI q => Byte.x01 :: pos_bits q
  end.

Fixpoint bits_pos (l : Bytes) : positive :=
  match l with
  | [] => xH
  | Byte.x00 :: r => xO (bits_pos r)
  | _ :: r => xI (bits_pos r)
  end.

Definition Z_bytes (z : Z) : Bytes :=
  match z with
  | Z0 => []
  | Zpos p => Byte.x01 :: pos_bits p
  | Zneg p => Byte.x02 :: pos_bits p
  end.

Definition bytes_Z (l : Bytes) : Z :=
  match l with
  | [] => Z0
  | Byte.x01 :: r => Zpos (bits_pos r)
  | _ :: r => Zneg (bits_pos r)
  end.

Definition put_entry (kt : string * Z) : Bytes :=
  Byte.x03 :: put (String.list_byte_of_string kt.1) ++ put (Z_bytes kt.2).

Definition Marshal (s : gmap string Z) : result Bytes :=
  Ok (flat_map put_entry (map_to_list s) ++ [Byte.x04]).

Fixpoint parse (fuel : nat) (d : Bytes) (acc : gmap string Z)
  : gmap string Z * option error :=
  match fuel with
  | O => (acc, Some "unexpected end of input")
  | S n =>
      match d with
      | [Byte.x04] => (acc, None)
      | Byte.x03 :: r =>
          match get r with
          | Some (k, r1) =>
              match get r1 with
              | Some (t, r2) =>
                  parse n r2 (<[String.string_of_list_byte k := bytes_Z t]> acc)
              | None => (acc, Some "invalid instant")
              end
          | None => (acc, Some "invalid key")
          end
      | _ => (acc, Some "invalid character")
      end
  end.

Definition Unmarshal (d : Bytes) (into : gmap string Z) : gmap string Z * option error :=
  parse (S (length d)) d into.

End RefCodec.

(** ** Concrete values for the examples *)

(** An extraction on payloads that do not have the field asked for. *)
Definition no_such_field : Bytes → string → string := λ _ _, "".

(** A callback that succeeds. *)
Definition succeed : Msg → bool → option error := λ _ _, None.

Definition example_limiter (a : Duration) (s : gmap string Z) : Limiter :=
  {| key := "id"; age := a; topic := "events";
     statefile := "/var/lib/sr/events.json"; seen := s |}.

Definition example_msg : Msg := {| Data := [] |}.

Definition no_metrics : Metrics := {| passedCtr := 0; skippedCtr := 0; errCtr := 0 |}.

Definition fs_of (fl : gmap string (list Byte.byte)) : FS := {| files := fl; calls := [] |}.

Definition no_faults (tmp : string) : WriteOracle :=
  {| tempfile_outcome := Ok tmp; write_fault := None;
     close_fault := None; rename_fault := None |}.

(** The encoding of a map by the reference codec. *)
Definition encoded (s : gmap string Z) : Bytes :=
  match RefCodec.Marshal s with
  | Ok d => d
  | Err _ => []
  end.

(** An extraction that takes the whole payload for the value. *)
Definition whole_payload : Bytes → string → string :=
  λ d _, String.string_of_list_byte d.

Definition msg_of (v : string) : Msg := {| Data := String.list_byte_of_string v |}.

(** A callback that fails. *)
Definition fail : Msg → bool → option error := λ _ _, Some "nats: timeout".

(** A join of a directory and a name that are already clean. *)
Definition plain_Join (dir name : string) : string := dir +:+ "/" +:+ name.

(** A write that fails after two bytes. *)
Definition torn_write (tmp : string) : WriteOracle :=
  {| tempfile_outcome := Ok tmp;
     write_fault := Some (2%nat, "no space left on device");
     close_fault := None; rename_fault := None |}.

Section Limiter.

(** What the limiter takes from outside this package. *)

(** [gjson.GetBytes(data, path).String()] *)
Variable gjson_GetBytes_String : Bytes → string → string.
(** [json.Marshal] of a map of instants. *)
Variable json_Marshal : gmap string Z → result Bytes.
(** [json.Unmarshal(d, &into)]: the entries decoded are stored into the map
    given, which is returned as it is when the call ends, also on an error. *)
Variable json_Unmarshal : Bytes → gmap string Z → gmap string Z * option error.
(** [config.StateDirectory()] *)
Variable StateDirectory : string.
Variable filepath_Join : string → string → string.

(** [ProcessAndRecord]; the callback is [f], the clock is read once in
    [shouldProcess] ([now_decide]) and once when the value is recorded
    ([now_record]). *)
Definition ProcessAndRecord (m : Limiter) (c : Metrics) (msg : Msg)
    (f : Msg → bool → option error) (now_decide now_record : Time)
  : Limiter * Metrics * option error :=
  if decide (key m = "") then (m, inc_passed c, f msg true)
  else
    let value := gjson_GetBytes_String (Data msg) (key m) in
    let process := shouldProcess m now_decide value in
    let c1 := if process then inc_passed c else inc_skipped c in
    match f msg process with
    | Some err => (m, inc_err c1, Some err)
    | None =>
        if process then (set_seen (<[value := now_record]> (seen m)) m, c1, None)
        else (m, c1, None)
    end.

(** The flag that [ProcessAndRecord] hands to the callback. *)
Definition process_flag (m : Limiter) (msg : Msg) (now_decide : Time) : bool :=
  if decide (key m = "") then true
  else shouldProcess m now_decide (gjson_GetBytes_String (Data msg) (key m)).

(** [readCache]; [fault] is what the environment decides for the read. *)
Definition readCache (m : Limiter) (fs : FS) (now : Time) (fault : option error)
  : Limiter * FS * option error :=
  if decide (statefile m = "") then (m, fs, None)
  else if decide (0 < size (seen m))%nat then
    (m, fs, Some "last seen cache is not empty")
  else
    match ioutil_ReadFile fault (statefile m) fs with
    | (fs1, Err e) => (m, fs1, Some e)
    | (fs1, Ok d) =>
        match json_Unmarshal d (seen m) with
        | (s, Some e) => (set_seen s m, fs1, Some e)
        | (s, None) =>
            (set_seen (scrub_entries (killtime m now) s) m, fs1, None)
        end
    end.

(** [writeCache] *)
Definition writeCache (m : Limiter) (fs : FS) (o : WriteOracle)
  : FS * option error :=
  if decide (size (seen m) = 0%nat) then (fs, None)
  else
    match json_Marshal (seen m) with
    | Err e => (fs, Some e)
    | Ok content =>
        match ioutil_TempFile (tempfile_outcome o) StateDirectory "memcache" fs with
        | (fs1, Err e) => (fs1, Some e)
        | (fs1, Ok tmpfile) =>
            match File_Write (write_fault o) tmpfile content fs1 with
            | (fs2, Err e) => (fs2, Some e)
            | (fs2, Ok written) =>
                match File_Close (close_fault o) tmpfile fs2 with
                | (fs3, Some e) => (fs3, Some e)
                | (fs3, None) =>
                    os_Rename (rename_fault o) tmpfile (statefile m) fs3
                end
            end
        end
    end.

(** [Configure], up to the start of the background loops: the receiver's
    fields are set, the cache is read, and the result of [readCache] is
    dropped. *)
Definition Configure (m : Limiter) (key' : string) (age' : Duration) (topic' : string)
    (fs : FS) (now : Time) (fault : option error)
  : Limiter * FS * option error :=
  let sf :=
    if decide (StateDirectory = "") then statefile m
    else filepath_Join StateDirectory (topic' +:+ ".json") in
  let m1 := {| key := key'; age := age'; topic := topic'; statefile := sf; seen := ∅ |} in
  let '(m2, fs', _) := readCache m1 fs now fault in
  (m2, fs', None).

(** The two halves of [ProcessAndRecord].  The lock is held inside
    [shouldProcess] and around the assignment to the map, and is free while
    the callback runs: [ProcessAndRecord_decide] is the call up to the
    callback (lines 90 to 102), [ProcessAndRecord_finish] is the call from
    the return of the callback (lines 105 to 116), on the limiter as it is
    by then. *)
Definition ProcessAndRecord_decide (m : Limiter) (c : Metrics) (msg : Msg)
    (now_decide : Time) : Metrics * bool :=
  if decide (key m = "") then (inc_passed c, true)
  else
    let value := gjson_GetBytes_String (Data msg) (key m) in
    let process := shouldProcess m now_decide value in
    (if process then inc_passed c else inc_skipped c, process).

Definition ProcessAndRecord_finish (m : Limiter) (c : Metrics) (msg : Msg)
    (process : bool) (r : option error) (now_record : Time)
  : Limiter * Metrics * option error :=
  if decide (key m = "") then (m, c, r)
  else
    let value := gjson_GetBytes_String (Data msg) (key m) in
    match r with
    | Some err => (m, inc_err c, Some err)
    | None =>
        if process then (set_seen (<[value := now_record]> (seen m)) m, c, None)
        else (m, c, None)
    end.

(** One operation on the limiter and its counters, and a list of them. *)
Definition apply_op (st : Limiter * Metrics) (o : limiter_op) : Limiter * Metrics :=
  match o with
  | OpProcessAndRecord msg f now_decide now_record =>
      (ProcessAndRecord st.1 st.2 msg f now_decide now_record).1
  | OpScrub now => (scrub st.1 now, st.2)
  end.

Definition run_ops (st : Limiter * Metrics) (ops : list limiter_op)
  : Limiter * Metrics :=
  foldl apply_op st ops.

(** Calls one after the other, all with the callback [f]: each is a message
    with the two times that the call reads on the clock. *)
Definition calls_with (f : Msg → bool → option error) (cs : list (Msg * Z * Z))
  : list limiter_op :=
  (λ c, OpProcessAndRecord c.1.1 f c.1.2 c.2) <$> cs.

(** The value that a call extracts from its message. *)
Definition call_value (k : string) (c : Msg * Z * Z) : string :=
  gjson_GetBytes_String (Data c.1.1) k.

(** [cacher]: without a state file the loop returns at once; otherwise a
    turn of the ticker runs [writeCache], whose error is logged and dropped,
    and [ctx.Done()] runs it once more before the loop returns.  A turn comes
    with the store as [writeCache] finds it and with what the file system
    decides during it. *)
Fixpoint cacher_loop (m : Limiter) (fs : FS)
    (turns : list (selected (gmap string Z * WriteOracle) (gmap string Z * WriteOracle)))
  : FS * bool :=
  match turns with
  | [] => (fs, false)
  | ticker_C (s, o) :: rest => cacher_loop m (writeCache (set_seen s m) fs o).1 rest
  | ctx_Done (s, o) :: _ => ((writeCache (set_seen s m) fs o).1, true)
  end.

Definition cacher (m : Limiter) (fs : FS)
    (turns : list (selected (gmap string Z * WriteOracle) (gmap string Z * WriteOracle)))
  : FS * bool :=
  if decide (statefile m = "") then (fs, true) else cacher_loop m fs turns.

(** ** Properties *)

Lemma wrap64_id z : int64 z → wrap64 z = z.
Proof.
  unfold int64, wrap64, MinInt64, MaxInt64. intros H.
  rewrite Z.mod_small; lia.
Qed.

Lemma wrap64_neg_min : wrap64 (- MinInt64) = MinInt64.
Proof. reflexivity. Qed.

Lemma Duration_neg a : int64 a → a ≠ MinInt64 → Duration_mul (-1) a = - a.
Proof.
  unfold Duration_mul, int64, MinInt64, MaxInt64. intros H Hne.
  replace (-1 * a) with (- a) by lia.
  apply wrap64_id. unfold int64, MinInt64, MaxInt64. lia.
Qed.

(** *** Arithmetic of the two offsets *)

Lemma ten_minutes : Duration_mul 10 Minute = 600000000000.
Proof. reflexivity. Qed.

(** For every window but the least [int64], [oldest] is [now - age]. *)
Lemma oldest_exact (m : Limiter) (now : Time) :
  int64 (age m) → age m ≠ MinInt64 →
  Time_Add now (Duration_mul (-1) (age m)) = now - age m.
Proof.
  intros Hr Hne. unfold Time_Add. rewrite Duration_neg by done. lia.
Qed.

(** When neither the negation nor the subtraction wraps, [killtime] is
    [now - age - 10 min]. *)
Lemma killtime_exact (m : Limiter) (now : Time) :
  MinInt64 < age m → age m ≤ MaxInt64 + 1 - 10 * Minute →
  killtime m now = now - age m - 10 * Minute.
Proof.
  intros Hlo Hhi. unfold killtime, Time_Add.
  assert (Hr : int64 (age m)).
  { unfold int64, MinInt64, MaxInt64, Minute, Second, Nanosecond in *. lia. }
  rewrite Duration_neg by (done || lia). rewrite ten_minutes.
  unfold Duration_sub. rewrite wrap64_id.
  - unfold Minute, Second, Nanosecond. lia.
  - unfold int64, MinInt64, MaxInt64, Minute, Second, Nanosecond in *. lia.
Qed.

(** *** The scrubbing loop *)

Lemma scrub_fold_lookup (kt : Time) (init s : gmap string Z) (k : string) :
  map_fold (λ i t acc, if Time_Before t kt then delete i acc else acc) init s !! k
  = match s !! k with
    | Some t => if Time_Before t kt then None else init !! k
    | None => init !! k
    end.
Proof.
  revert k.
  apply (map_fold_weak_ind (λ (r : gmap string Z) (s' : gmap string Z),
    ∀ k, r !! k = match s' !! k with
                  | Some t => if Time_Before t kt then None else init !! k
                  | None => init !! k
                  end)).
  - intros k. by rewrite lookup_empty.
  - intros i x s' r Hi IH k. destruct (decide (k = i)) as [->|Hk].
    + rewrite lookup_insert_eq. destruct (Time_Before x kt).
      * by rewrite lookup_delete_eq.
      * rewrite IH, Hi. done.
    + rewrite lookup_insert_ne by done. destruct (Time_Before x kt).
      * rewrite lookup_delete_ne by done. apply IH.
      * apply IH.
Qed.

Lemma scrub_entries_lookup (kt : Time) (s : gmap string Z) (k : string) :
  scrub_entries kt s !! k
  = match s !! k with
    | Some t => if Time_Before t kt then None else Some t
    | None => None
    end.
Proof.
  unfold scrub_entries. rewrite scrub_fold_lookup.
  destruct (s !! k) as [t|] eqn:E; [|done]. by destruct (Time_Before t kt).
Qed.

(** The loop keeps exactly the entries that are not before the kill time. *)
Lemma scrub_entries_filter (kt : Time) (s : gmap string Z) :
  scrub_entries kt s = filter (λ e, ¬ e.2 < kt) s.
Proof.
  apply map_eq. intros k. rewrite scrub_entries_lookup, map_lookup_filter.
  destruct (s !! k) as [t|]; simpl; [|done].
  unfold Time_Before. case_bool_decide; case_guard; simpl in *; done.
Qed.

Lemma scrub_entries_prune_spec (m : Limiter) (now : Time) (s : gmap string Z) :
  MinInt64 < age m → age m ≤ MaxInt64 + 1 - 10 * Minute →
  scrub_entries (killtime m now) s = prune_spec (age m) now s.
Proof.
  intros Hlo Hhi. rewrite scrub_entries_filter, killtime_exact by done.
  unfold prune_spec. apply map_filter_ext. intros k t _. simpl. lia.
Qed.

Lemma scrub_entries_empty (kt : Time) : scrub_entries kt ∅ = ∅.
Proof. apply map_eq. intros k. by rewrite scrub_entries_lookup, lookup_empty. Qed.

Lemma scrub_entries_no_future (kt now : Time) (s : gmap string Z) :
  no_future now s → no_future now (scrub_entries kt s).
Proof.
  intros H k t. rewrite scrub_entries_lookup.
  destruct (s !! k) as [t'|] eqn:E; [|done].
  destruct (Time_Before t' kt); [done|]. intros [= <-]. by eapply (H k).
Qed.

(** *** The decision *)

(** C1, as amended.  The decision of [shouldProcess]: an empty value is
    processed; a value that is not in the map is processed; a value that is
    not empty and was last seen at [t] is processed exactly when the time
    elapsed since, [now - t], is strictly greater than the window, and is
    suppressed otherwise.  The window is any [int64] duration whose negation
    is one, that is any but the least, [MinInt64], for which [-1 * age]
    wraps around; every window from zero up is covered. *)
Theorem shouldProcess_decision (m : Limiter) (now : Time) (value : string)
    (Hage : int64 (age m)) (Hmin : age m ≠ MinInt64) :
  (value = "" → shouldProcess m now value = true)
  ∧ (seen m !! value = None → shouldProcess m now value = true)
  ∧ (∀ t, value ≠ "" → seen m !! value = Some t →
       (shouldProcess m now value = true ↔ now - t > age m)
       ∧ (shouldProcess m now value = false ↔ now - t ≤ age m)).
Proof.
  unfold shouldProcess. split; [|split].
  - intros ->. done.
  - intros ->. by destruct (decide (value = "")).
  - intros t Hv Ht. rewrite Ht, oldest_exact by done.
    destruct (decide (value = "")) as [|_]; [done|].
    unfold Time_Before. case_bool_decide; split; split; (done || lia).
Qed.

(** C9.  At the boundary the message is suppressed: when the time elapsed
    since a value (not empty) was last seen equals the window exactly, the
    decision is false; this holds for every [int64] window. *)
Theorem shouldProcess_at_window (m : Limiter) (now : Time) (value : string) (t : Time)
    (Hage : int64 (age m)) (Hv : value ≠ "")
    (Ht : seen m !! value = Some t) (Hd : now - t = age m) :
  shouldProcess m now value = false.
Proof.
  unfold shouldProcess. rewrite Ht.
  destruct (decide (value = "")) as [|_]; [done|].
  unfold Time_Before, Time_Add. rewrite bool_decide_eq_false_2; [done|].
  destruct (decide (age m = MinInt64)) as [E|E].
  - unfold Duration_mul. rewrite E in *. change (-1 * MinInt64) with (- MinInt64).
    rewrite wrap64_neg_min. unfold MinInt64 in *. lia.
  - rewrite Duration_neg by done. lia.
Qed.

(** *** Scrubbing *)

(** C10, as amended.  For a window [age] with [MinInt64 < age] and
    [age + 10 min <= MaxInt64 + 1], so that neither [-1 * age] nor
    [(-1 * age) - 10 min] wraps around, [scrub] at [now] changes no decision
    taken at [now]: the entries it removes are older than the window plus
    ten minutes, for which the decision is already true, as it is for a
    value that is absent. *)
Theorem scrub_keeps_decision (m : Limiter) (now : Time) (value : string)
    (Hlo : MinInt64 < age m) (Hhi : age m ≤ MaxInt64 + 1 - 10 * Minute) :
  shouldProcess (scrub m now) now value = shouldProcess m now value.
Proof.
  assert (Hr : int64 (age m)).
  { unfold int64, MinInt64, MaxInt64, Minute, Second, Nanosecond in *. lia. }
  unfold shouldProcess. simpl.
  destruct (decide (value = "")) as [|_]; [done|].
  rewrite scrub_entries_lookup, killtime_exact by done.
  destruct (seen m !! value) as [t|]; [|done].
  rewrite oldest_exact by (done || lia).
  unfold Time_Before, Minute, Second, Nanosecond.
  repeat case_bool_decide; (done || lia).
Qed.

(** The range of windows in [scrub_keeps_decision] is the whole of it: for
    every other [int64] window, an entry seen at [now] is suppressed before
    [scrub] and deleted by it. *)
Lemma scrub_changes_decision_outside (a : Duration) (now : Time) (k : string) :
  int64 a → a = MinInt64 ∨ MaxInt64 + 1 - 10 * Minute < a → k ≠ "" →
  let m := {| key := "id"; age := a; topic := "events";
              statefile := ""; seen := {[ k := now ]} |} in
  shouldProcess m now k = false ∧ shouldProcess (scrub m now) now k = true.
Proof.
  intros Hr Hout Hk m.
  assert (Hold : Time_Before now (Time_Add now (Duration_mul (-1) a)) = false).
  { unfold Time_Before, Time_Add. apply bool_decide_eq_false_2.
    destruct Hout as [->|Hbig].
    - unfold Duration_mul. change (-1 * MinInt64) with (- MinInt64).
      rewrite wrap64_neg_min. unfold MinInt64. lia.
    - rewrite Duration_neg; unfold int64, MinInt64, MaxInt64, Minute, Second,
        Nanosecond in *; lia. }
  assert (Hkill : Time_Before now (killtime m now) = true).
  { unfold Time_Before, killtime, Time_Add. apply bool_decide_eq_true_2.
    rewrite ten_minutes. simpl age. destruct Hout as [->|Hbig].
    - assert (Duration_sub (Duration_mul (-1) MinInt64) 600000000000
              = 9223371436854775808) as -> by reflexivity.
      lia.
    - rewrite Duration_neg;
        [|done|unfold int64, MinInt64, MaxInt64, Minute, Second, Nanosecond in *; lia].
      unfold Duration_sub, wrap64.
      unfold int64, MinInt64, MaxInt64, Minute, Second, Nanosecond in *.
      replace (- a - 600000000000 + 2 ^ 63)
        with ((- a - 600000000000 + 2 ^ 63 + 2 ^ 64) + (-1) * 2 ^ 64) by lia.
      rewrite Z_mod_plus_full, Z.mod_small; lia. }
  unfold shouldProcess. simpl.
  destruct (decide (k = "")) as [|_]; [done|].
  rewrite scrub_entries_lookup, lookup_singleton_eq.
  fold (killtime m now). rewrite Hkill. change (age m) with a. by rewrite Hold.
Qed.

(** *** Deciding and recording *)

Lemma ProcessAndRecord_records (m : Limiter) (c : Metrics) (msg : Msg)
    (f : Msg → bool → option error) (now_decide now_record : Time) :
  key m ≠ "" →
  shouldProcess m now_decide (gjson_GetBytes_String (Data msg) (key m)) = true →
  f msg true = None →
  ProcessAndRecord m c msg f now_decide now_record
  = (set_seen (<[gjson_GetBytes_String (Data msg) (key m) := now_record]> (seen m)) m,
     inc_passed c, None).
Proof.
  intros Hk Hp Hf. unfold ProcessAndRecord.
  destruct (decide (key m = "")) as [|_]; [done|]. by rewrite Hp, Hf.
Qed.

(** C2.  [ProcessAndRecord] changes the limiter only when the decision was
    to process and the callback succeeded; when the callback fails its error
    is returned and the limiter, with its map, is as before the call; when
    the message is suppressed the limiter is as before, so that no stored
    instant is updated. *)
Theorem ProcessAndRecord_frame (m : Limiter) (c : Metrics) (msg : Msg)
    (f : Msg → bool → option error) (now_decide now_record : Time) :
  let out := ProcessAndRecord m c msg f now_decide now_record in
  let process := process_flag m msg now_decide in
  (seen out.1.1 ≠ seen m → key m ≠ "" ∧ process = true ∧ f msg process = None)
  ∧ (∀ e, f msg process = Some e → out.2 = Some e ∧ out.1.1 = m)
  ∧ (process = false → out.1.1 = m).
Proof.
  unfold ProcessAndRecord, process_flag. simpl.
  destruct (decide (key m = "")) as [Hk|Hk]; simpl.
  - split; [done|]. split; [|done]. intros e ->. done.
  - destruct (shouldProcess m now_decide _) eqn:Hp;
      destruct (f msg _) as [e|] eqn:Hf; simpl; repeat split; try done.
    all: intros e' [= <-]; done.
Qed.

(** C3, as amended.  When the value extracted is the empty string and the
    callback succeeds, [ProcessAndRecord] stores the instant of recording
    under the key [""]: the entries of all other keys are as before, and no
    decision changes, for any value and at any time. *)
Theorem ProcessAndRecord_empty_value (m : Limiter) (c : Metrics) (msg : Msg)
    (f : Msg → bool → option error) (now_decide now_record : Time)
    (Hk : key m ≠ "")
    (Hv : gjson_GetBytes_String (Data msg) (key m) = "")
    (Hf : f msg true = None) :
  let out := ProcessAndRecord m c msg f now_decide now_record in
  out = (set_seen (<["" := now_record]> (seen m)) m, inc_passed c, None)
  ∧ seen out.1.1 !! "" = Some now_record
  ∧ (∀ v, v ≠ "" → seen out.1.1 !! v = seen m !! v)
  ∧ (∀ now v, shouldProcess out.1.1 now v = shouldProcess m now v).
Proof.
  simpl. rewrite ProcessAndRecord_records; rewrite ?Hv; try done.
  simpl. split; [done|]. split; [by rewrite lookup_insert_eq|]. split.
  - intros v Hne. by rewrite lookup_insert_ne.
  - intros now v. unfold shouldProcess. simpl.
    destruct (decide (v = "")) as [|Hne]; [done|]. by rewrite lookup_insert_ne.
Qed.

(** *** Reading the cache *)

(** C6, as amended.  With a state file configured and no file at its path,
    [readCache] returns the error of the read and leaves the limiter as it
    was: a store that was empty stays empty. *)
Theorem readCache_absent_file (m : Limiter) (fs : FS) (now : Time) (fault : option error)
    (Hsf : statefile m ≠ "") (Habs : files fs !! statefile m = None) :
  let out := readCache m fs now fault in
  (∃ e, out.2 = Some e) ∧ out.1.1 = m ∧ (seen m = ∅ → seen out.1.1 = ∅).
Proof.
  simpl. unfold readCache, ioutil_ReadFile.
  destruct (decide (statefile m = "")) as [|_]; [done|].
  destruct (decide (0 < size (seen m))%nat); simpl; [by eauto|].
  rewrite Habs. destruct fault; simpl; by eauto.
Qed.

(** [Configure] drops the result of [readCache] and returns nil. *)
Lemma Configure_nil (m : Limiter) (k : string) (a : Duration) (tp : string)
    (fs : FS) (now : Time) (fault : option error) :
  (Configure m k a tp fs now fault).2 = None.
Proof.
  unfold Configure.
  by destruct (readCache _ fs now fault) as [[m2 fs'] r].
Qed.

(** So a limiter configured while the state file is absent starts empty. *)
Lemma Configure_absent_file (m : Limiter) (k : string) (a : Duration) (tp : string)
    (fs : FS) (now : Time) (fault : option error) :
  StateDirectory ≠ "" →
  files fs !! filepath_Join StateDirectory (tp +:+ ".json") = None →
  seen (Configure m k a tp fs now fault).1.1 = ∅.
Proof.
  intros Hd Habs. unfold Configure, readCache, ioutil_ReadFile. simpl.
  destruct (decide (StateDirectory = "")) as [|_]; [done|].
  destruct (decide (filepath_Join _ _ = "")); [done|].
  rewrite map_size_empty.
  destruct (decide (0 < 0)%nat); [lia|].
  rewrite Habs. by destruct fault.
Qed.

(** C7.  With a state file configured, [readCache] on a map that is not
    empty returns the error [last seen cache is not empty]; the limiter and
    the file system are as before, and no call was made on the file
    system, so that the file was not read. *)
Theorem readCache_not_empty (m : Limiter) (fs : FS) (now : Time) (fault : option error)
    (Hsf : statefile m ≠ "") (Hne : seen m ≠ ∅) :
  readCache m fs now fault = (m, fs, Some "last seen cache is not empty")
  ∧ calls (readCache m fs now fault).1.2 = calls fs.
Proof.
  unfold readCache.
  destruct (decide (statefile m = "")) as [|_]; [done|].
  destruct (decide (0 < size (seen m))%nat) as [|Hz]; [done|].
  exfalso. apply Hne, map_size_empty_iff. lia.
Qed.

(** C8, as amended.  No stored instant is in the future: recording in
    [ProcessAndRecord] keeps this, and so does [readCache] provided that the
    instants decoded from the state file are themselves not after the time
    of the load. *)
Theorem no_future_preserved :
  (∀ (m : Limiter) (c : Metrics) (msg : Msg) (f : Msg → bool → option error)
     (now_decide now : Time),
     no_future now (seen m) →
     no_future now (seen (ProcessAndRecord m c msg f now_decide now).1.1))
  ∧ (∀ (m : Limiter) (fs : FS) (now : Time) (fault : option error),
     no_future now (seen m) →
     (∀ d, files fs !! statefile m = Some d →
           no_future now (json_Unmarshal d (seen m)).1) →
     no_future now (seen (readCache m fs now fault).1.1)).
Proof.
  split.
  - intros m c msg f now_decide now Hinv. unfold ProcessAndRecord.
    destruct (decide (key m = "")); [done|].
    destruct (f msg _); [done|].
    destruct (shouldProcess m now_decide _); [|done].
    simpl. apply map_Forall_insert_2; [lia|done].
  - intros m fs now fault Hinv Hfile. unfold readCache, ioutil_ReadFile.
    destruct (decide (statefile m = "")); [done|].
    destruct (decide (0 < size (seen m))%nat); [done|].
    destruct fault; [done|].
    destruct (files fs !! statefile m) as [d|] eqn:Hd; [|done].
    specialize (Hfile d eq_refl).
    destruct (json_Unmarshal d (seen m)) as [s [e|]]; simpl in *; [done|].
    by apply scrub_entries_no_future.
Qed.

(** *** Writing the cache *)

(** With an empty map nothing is done. *)
Lemma writeCache_empty (m : Limiter) (fs : FS) (o : WriteOracle) :
  seen m = ∅ → writeCache m fs o = (fs, None).
Proof.
  intros E. unfold writeCache. rewrite E, map_size_empty.
  by destruct (decide (0%nat = 0%nat)).
Qed.

(** A call that returns nil on a map that is not empty has renamed a
    temporary file holding the whole serialization to the state file. *)
Lemma writeCache_success (m : Limiter) (fs : FS) (o : WriteOracle) :
  seen m ≠ ∅ → (writeCache m fs o).2 = None →
  statefile m ≠ ""
  ∧ ∃ content, json_Marshal (seen m) = Ok content
      ∧ files (writeCache m fs o).1 !! statefile m = Some content.
Proof.
  intros Hne. unfold writeCache.
  destruct (decide (size (seen m) = 0%nat)) as [Hz|_].
  { by apply map_size_empty_iff in Hz. }
  destruct (json_Marshal (seen m)) as [content|e]; [|done].
  unfold ioutil_TempFile.
  destruct (tempfile_outcome o) as [tmp|e]; [|done].
  destruct (files fs !! tmp) eqn:Htmp; [done|].
  unfold File_Write. destruct (write_fault o) as [[wn we]|]; [done|].
  unfold File_Close. destruct (close_fault o); [done|].
  unfold os_Rename. destruct (rename_fault o); [done|].
  destruct (decide (statefile m = "")); [done|]. simpl.
  rewrite !lookup_insert_eq. simpl. intros _. split; [done|].
  exists content. by rewrite lookup_insert_eq.
Qed.

(** A call that returns an error has not touched the state file, as long as
    the temporary file is another file. *)
Lemma writeCache_failure (m : Limiter) (fs : FS) (o : WriteOracle) (e : error) :
  tempfile_outcome o ≠ Ok (statefile m) →
  (writeCache m fs o).2 = Some e →
  files (writeCache m fs o).1 !! statefile m = files fs !! statefile m.
Proof.
  intros Hother. unfold writeCache.
  destruct (decide (size (seen m) = 0%nat)); [done|].
  destruct (json_Marshal (seen m)) as [content|e']; [|done].
  unfold ioutil_TempFile.
  destruct (tempfile_outcome o) as [tmp|e']; [|done].
  assert (Hne : tmp ≠ statefile m) by congruence.
  destruct (files fs !! tmp) eqn:Htmp; [done|].
  unfold File_Write. destruct (write_fault o) as [[wn we]|]; simpl.
  { intros _. by rewrite !lookup_insert_ne. }
  unfold File_Close. destruct (close_fault o); simpl.
  { intros _. by rewrite !lookup_insert_ne. }
  unfold os_Rename. destruct (rename_fault o); simpl.
  { intros _. by rewrite !lookup_insert_ne. }
  destruct (decide (statefile m = "")); simpl.
  { intros _. by rewrite !lookup_insert_ne. }
  by rewrite !lookup_insert_eq.
Qed.

(** C5, as amended.  Whatever step of [writeCache] fails (serialization,
    creation of the temporary file, write, close or rename), the state file
    is as before the call; when the call returns nil and the map is not
    empty, the state file holds the whole serialization of the map; when the
    map is empty the call returns nil and has done nothing.  So the state
    file holds its former content or the new one, never a part.  The
    temporary file is assumed to be another file than the state file. *)
Theorem writeCache_atomic (m : Limiter) (fs : FS) (o : WriteOracle)
    (Hother : tempfile_outcome o ≠ Ok (statefile m)) :
  let out := writeCache m fs o in
  (∀ e, out.2 = Some e → files out.1 !! statefile m = files fs !! statefile m)
  ∧ (out.2 = None → seen m ≠ ∅ →
       ∃ content, json_Marshal (seen m) = Ok content
         ∧ files out.1 !! statefile m = Some content)
  ∧ (seen m = ∅ → out = (fs, None)).
Proof.
  simpl. split; [|split].
  - intros e. by apply writeCache_failure.
  - intros Hr Hne. by apply writeCache_success.
  - apply writeCache_empty.
Qed.

(** C4, as amended.  A map that is not empty, written by a [writeCache] that
    succeeds and read back by [readCache] into an empty store, comes back
    with the entries whose age at the time of the load is at most the window
    plus ten minutes, and without the others; when no entry is older than
    that, the map comes back as it was.  The codec is assumed to decode what
    it encoded for this map, the read not to fail, and the window to be such
    that [window + 10 min] does not overflow. *)
Theorem cache_round_trip (m : Limiter) (fs : FS) (o : WriteOracle) (now : Time)
    (content : Bytes)
    (Hne : seen m ≠ ∅)
    (Hlo : MinInt64 < age m) (Hhi : age m ≤ MaxInt64 + 1 - 10 * Minute)
    (Hwritten : (writeCache m fs o).2 = None)
    (Hmarshal : json_Marshal (seen m) = Ok content)
    (Hunmarshal : json_Unmarshal content ∅ = (seen m, None)) :
  let fs' := (writeCache m fs o).1 in
  readCache (set_seen ∅ m) fs' now None
  = (set_seen (prune_spec (age m) now (seen m)) m,
     called (CallReadFile (statefile m)) fs', None)
  ∧ (size (prune_spec (age m) now (seen m)) ≤ size (seen m))%nat
  ∧ ((∀ k t, seen m !! k = Some t → now - t ≤ age m + 10 * Minute) →
     prune_spec (age m) now (seen m) = seen m).
Proof.
  simpl. destruct (writeCache_success m fs o Hne Hwritten) as (Hsf & c' & Hc' & Hfile).
  assert (c' = content) as -> by congruence.
  split; [|split].
  - unfold readCache, ioutil_ReadFile. simpl.
    destruct (decide (statefile m = "")) as [|_]; [done|].
    rewrite map_size_empty. destruct (decide (0 < 0)%nat); [lia|].
    rewrite Hfile, Hunmarshal.
    change (killtime (set_seen ∅ m) now) with (killtime m now).
    by rewrite scrub_entries_prune_spec.
  - apply map_subseteq_size, map_filter_subseteq.
  - intros Hyoung. unfold prune_spec. apply map_filter_id.
    intros k t Hkt. simpl. by eapply Hyoung.
Qed.

(** The condition on the state file in [no_future_preserved] is met by the
    files of the limiter itself, as long as the clock has not gone back
    between the write and the load. *)
Lemma no_future_round_trip (m : Limiter) (fs : FS) (o : WriteOracle)
    (written_at now : Time) (content : Bytes) :
  seen m ≠ ∅ →
  no_future written_at (seen m) → written_at ≤ now →
  (writeCache m fs o).2 = None →
  json_Marshal (seen m) = Ok content →
  json_Unmarshal content ∅ = (seen m, None) →
  no_future now (seen (readCache (set_seen ∅ m) (writeCache m fs o).1 now None).1.1).
Proof.
  intros Hne Hinv Hle Hw Hmar Hun.
  destruct (writeCache_success m fs o Hne Hw) as (Hsf & c' & Hc' & Hfile).
  assert (c' = content) as -> by congruence.
  unfold readCache, ioutil_ReadFile. simpl.
  destruct (decide (statefile m = "")) as [|_]; [done|].
  rewrite map_size_empty. destruct (decide (0 < 0)%nat); [lia|].
  rewrite Hfile, Hun. simpl. apply scrub_entries_no_future.
  eapply map_Forall_impl; [exact Hinv|]. simpl. intros _ t Ht. lia.
Qed.

(** ** More on deciding and recording *)

(** After a call the limiter is as before, or has the value of the message
    recorded at the time of recording. *)
Lemma ProcessAndRecord_limiter (m : Limiter) (c : Metrics) (msg : Msg)
    (f : Msg → bool → option error) (now_decide now_record : Time) :
  (ProcessAndRecord m c msg f now_decide now_record).1.1 = m
  ∨ (ProcessAndRecord m c msg f now_decide now_record).1.1
    = set_seen (<[gjson_GetBytes_String (Data msg) (key m) := now_record]> (seen m)) m.
Proof.
  unfold ProcessAndRecord.
  destruct (decide (key m = "")); [by left|].
  destruct (f msg _); [by left|].
  destruct (shouldProcess m now_decide _); [by right|by left].
Qed.

Lemma ProcessAndRecord_two_halves (m : Limiter) (c : Metrics) (msg : Msg)
    (f : Msg → bool → option error) (now_decide now_record : Time) :
  ProcessAndRecord m c msg f now_decide now_record
  = let d := ProcessAndRecord_decide m c msg now_decide in
    ProcessAndRecord_finish m d.1 msg d.2 (f msg d.2) now_record.
Proof.
  unfold ProcessAndRecord, ProcessAndRecord_decide, ProcessAndRecord_finish.
  destruct (decide (key m = "")) as [Hk|Hk]; simpl.
  - by destruct (decide (key m = "")).
  - destruct (decide (key m = "")); [done|].
    destruct (shouldProcess m now_decide _); simpl; by destruct (f msg _).
Qed.

(** X1.  The counters of one call of [ProcessAndRecord]: exactly one of
    passed and skipped is incremented, passed when the callback is handed
    [true]; the error counter is incremented when the callback fails and a
    key is configured; without a key the failure of the callback is returned
    and not counted. *)
Theorem ProcessAndRecord_counters (m : Limiter) (c : Metrics) (msg : Msg)
    (f : Msg → bool → option error) (now_decide now_record : Time) :
  let out := ProcessAndRecord m c msg f now_decide now_record in
  let process := process_flag m msg now_decide in
  passedCtr out.1.2 = (if process then S (passedCtr c) else passedCtr c)
  ∧ skippedCtr out.1.2 = (if process then skippedCtr c else S (skippedCtr c))
  ∧ errCtr out.1.2
    = match f msg process with
      | Some _ => if decide (key m = "") then errCtr c else S (errCtr c)
      | None => errCtr c
      end
  ∧ out.2 = f msg process.
Proof.
  unfold ProcessAndRecord, process_flag. simpl.
  destruct (decide (key m = "")) as [Hk|Hk]; simpl.
  - by destruct (f msg true).
  - destruct (shouldProcess m now_decide _); simpl;
      destruct (f msg _); simpl; done.
Qed.

(** X2.  The window runs from the time of recording: after a call that
    processed a value and whose callback succeeded, the value is stored with
    the time of recording, and from then on it is suppressed at every time
    at most [age] later and processed at every time more than [age] later. *)
Theorem window_after_record (m : Limiter) (c : Metrics) (msg : Msg)
    (f : Msg → bool → option error) (now_decide now_record now : Time)
    (Hk : key m ≠ "")
    (Hv : gjson_GetBytes_String (Data msg) (key m) ≠ "")
    (Hage : int64 (age m)) (Hmin : age m ≠ MinInt64)
    (Hp : shouldProcess m now_decide (gjson_GetBytes_String (Data msg) (key m)) = true)
    (Hf : f msg true = None) :
  let value := gjson_GetBytes_String (Data msg) (key m) in
  let m' := (ProcessAndRecord m c msg f now_decide now_record).1.1 in
  seen m' !! value = Some now_record
  ∧ (shouldProcess m' now value = false ↔ now - now_record ≤ age m)
  ∧ (shouldProcess m' now value = true ↔ now - now_record > age m).
Proof.
  simpl. rewrite ProcessAndRecord_records by done. simpl.
  split; [by rewrite lookup_insert_eq|].
  unfold shouldProcess. simpl. rewrite lookup_insert_eq.
  destruct (decide (_ = "")) as [|_]; [done|].
  rewrite oldest_exact by done.
  unfold Time_Before. case_bool_decide; split; split; (done || lia).
Qed.

(** X3.  A call touches the entry of the value of its message and no other:
    for every other value the entry is as before and so is the decision at
    any time; the map grows by one entry at most. *)
Theorem ProcessAndRecord_other_values (m : Limiter) (c : Metrics) (msg : Msg)
    (f : Msg → bool → option error) (now_decide now_record : Time) (w : string)
    (Hw : w ≠ gjson_GetBytes_String (Data msg) (key m)) :
  let m' := (ProcessAndRecord m c msg f now_decide now_record).1.1 in
  seen m' !! w = seen m !! w
  ∧ (∀ now, shouldProcess m' now w = shouldProcess m now w)
  ∧ (size (seen m) ≤ size (seen m') ≤ S (size (seen m)))%nat.
Proof.
  simpl.
  destruct (ProcessAndRecord_limiter m c msg f now_decide now_record) as [->| ->].
  - split; [done|]. split; [done|]. lia.
  - simpl. split; [by rewrite lookup_insert_ne|]. split.
    + intros now. unfold shouldProcess. simpl. by rewrite lookup_insert_ne.
    + destruct (seen m !! gjson_GetBytes_String (Data msg) (key m)) eqn:E.
      * rewrite map_size_insert_Some by eauto. lia.
      * rewrite map_size_insert_None by done. lia.
Qed.

(** X4.  Two calls that overlap can both process the same value: when the
    second call decides before the first has recorded, on a value that is
    not in the map, both callbacks are handed [true], both calls count as
    passed, and the map ends with the time at which the second recorded.
    Had the second call started after the first had recorded, and not more
    than [age] later, it would have been suppressed. *)
Theorem overlapping_calls_both_process (m : Limiter) (c : Metrics) (msgA msgB : Msg)
    (fA fB : Msg → bool → option error) (tA tB tA' tB' : Time)
    (Hk : key m ≠ "")
    (Hsame : gjson_GetBytes_String (Data msgB) (key m)
             = gjson_GetBytes_String (Data msgA) (key m))
    (Hv : gjson_GetBytes_String (Data msgA) (key m) ≠ "")
    (Hnew : seen m !! gjson_GetBytes_String (Data msgA) (key m) = None)
    (HfA : fA msgA true = None) (HfB : fB msgB true = None)
    (Hage : int64 (age m)) (Hmin : age m ≠ MinInt64) (Hclose : tB - tA' ≤ age m) :
  let v := gjson_GetBytes_String (Data msgA) (key m) in
  let dA := ProcessAndRecord_decide m c msgA tA in
  let dB := ProcessAndRecord_decide m dA.1 msgB tB in
  let eA := ProcessAndRecord_finish m dB.1 msgA dA.2 (fA msgA dA.2) tA' in
  let eB := ProcessAndRecord_finish eA.1.1 eA.1.2 msgB dB.2 (fB msgB dB.2) tB' in
  let sA := ProcessAndRecord m c msgA fA tA tA' in
  (dA.2 = true ∧ dB.2 = true)
  ∧ (eA.2 = None ∧ eB.2 = None)
  ∧ seen eB.1.1 = <[v := tB']> (seen m)
  ∧ passedCtr eB.1.2 = S (S (passedCtr c))
  ∧ (ProcessAndRecord_decide sA.1.1 sA.1.2 msgB tB).2 = false.
Proof.
  simpl.
  assert (HpA : ∀ t, shouldProcess m t (gjson_GetBytes_String (Data msgA) (key m)) = true).
  { intros t. unfold shouldProcess. rewrite Hnew. by destruct (decide (_ = "")). }
  rewrite (ProcessAndRecord_records m c msgA fA tA tA') by done.
  unfold ProcessAndRecord_decide, ProcessAndRecord_finish. simpl.
  destruct (decide (key m = "")) as [|_]; [done|]. simpl.
  rewrite Hsame, !HpA. simpl. rewrite HfA, HfB. simpl.
  destruct (decide (key m = "")) as [|_]; [done|]. simpl.
  rewrite Hsame, insert_insert_eq.
  repeat (split; [done|]).
  unfold shouldProcess. simpl. rewrite lookup_insert_eq.
  destruct (decide (_ = "")) as [|_]; [done|].
  rewrite oldest_exact by done.
  unfold Time_Before. rewrite bool_decide_eq_false_2; [done|lia].
Qed.

(** ** More on scrubbing *)

Lemma scrub_entries_compose (k1 k2 : Time) (s : gmap string Z) :
  scrub_entries k2 (scrub_entries k1 s) = scrub_entries (k1 `max` k2) s.
Proof.
  apply map_eq. intros k. rewrite !scrub_entries_lookup.
  destruct (s !! k) as [t|]; [|done].
  unfold Time_Before. repeat case_bool_decide; (done || lia).
Qed.

Lemma scrub_compose (m : Limiter) (a b : Time) :
  scrub (scrub m a) b = scrub m (a `max` b).
Proof.
  unfold scrub. simpl.
  change (killtime (set_seen (scrub_entries (killtime m a) (seen m)) m) b)
    with (killtime m b).
  rewrite scrub_entries_compose. unfold set_seen. simpl. do 2 f_equal.
  unfold killtime, Time_Add. lia.
Qed.

Lemma scrubber_ticks_then (ticks : list Z) (m : Limiter) (T : Time)
    (rest : list (selected Z unit)) :
  Forall (λ t, t ≤ T) ticks →
  scrubber m ((ticker_C <$> ticks) ++ ticker_C T :: rest) = scrubber (scrub m T) rest.
Proof.
  revert m. induction ticks as [|t ticks IH]; intros m Hall; [done|].
  apply Forall_cons in Hall as [Ht Hall].
  simpl. rewrite IH, scrub_compose by done. by rewrite Z.max_r.
Qed.

(** What [scrub] does to the decision, for a window in the range where the
    kill time does not wrap around. *)
Lemma scrub_entries_decision (m : Limiter) (now : Time) (value : string) :
  MinInt64 < age m → age m ≤ MaxInt64 + 1 - 10 * Minute →
  shouldProcess (set_seen (scrub_entries (killtime m now) (seen m)) m) now value
  = shouldProcess m now value.
Proof.
  intros Hlo Hhi.
  assert (Hr : int64 (age m)).
  { unfold int64, MinInt64, MaxInt64, Minute, Second, Nanosecond in *. lia. }
  unfold shouldProcess. simpl.
  destruct (decide (value = "")) as [|_]; [done|].
  rewrite scrub_entries_lookup, killtime_exact by done.
  destruct (seen m !! value) as [t|]; [|done].
  rewrite oldest_exact by (done || lia).
  unfold Time_Before, Minute, Second, Nanosecond.
  repeat case_bool_decide; (done || lia).
Qed.

(** X5.  What [scrub] keeps: for a window [age] with [MinInt64 < age] and
    [age + 10 min <= MaxInt64 + 1], an entry is in the map after [scrub] at
    [now] exactly when it was in the map before and its age, [now - t], is
    at most the window plus ten minutes. *)
Theorem scrub_keeps_recent (m : Limiter) (now : Time) (k : string) (t : Time)
    (Hlo : MinInt64 < age m) (Hhi : age m ≤ MaxInt64 + 1 - 10 * Minute) :
  seen (scrub m now) !! k = Some t
  ↔ seen m !! k = Some t ∧ now - t ≤ age m + 10 * Minute.
Proof.
  unfold scrub. simpl. rewrite scrub_entries_lookup, killtime_exact by done.
  destruct (seen m !! k) as [t'|]; [|split; [done|by intros [? _]]].
  unfold Time_Before. case_bool_decide; split.
  - done.
  - intros [[= ->] ?]. lia.
  - intros [= ->]. split; [done|lia].
  - by intros [? _].
Qed.

(** X6.  [scrub] only deletes, whatever the window and the time: the map
    after it is included in the map before it, and the key, the window, the
    topic and the state file of the limiter are as before. *)
Theorem scrub_only_deletes (m : Limiter) (now : Time) :
  seen (scrub m now) ⊆ seen m
  ∧ (size (seen (scrub m now)) ≤ size (seen m))%nat
  ∧ (key (scrub m now), age (scrub m now), topic (scrub m now), statefile (scrub m now))
    = (key m, age m, topic m, statefile m).
Proof.
  assert (H : seen (scrub m now) ⊆ seen m).
  { unfold scrub. simpl. rewrite scrub_entries_filter. apply map_filter_subseteq. }
  split; [done|]. split; [by apply map_subseteq_size|done].
Qed.

(** X7.  Two scrubs are one: [scrub] at [a] and then at [b] leaves the
    limiter that one [scrub] at the later of the two times leaves; so
    [scrub] is idempotent, and the order of two scrubs does not matter. *)
Theorem scrub_twice (m : Limiter) (a b : Time) :
  scrub (scrub m a) b = scrub m (a `max` b)
  ∧ scrub (scrub m a) a = scrub m a
  ∧ scrub (scrub m a) b = scrub (scrub m b) a.
Proof.
  split; [apply scrub_compose|]. split.
  - by rewrite scrub_compose, Z.max_id.
  - by rewrite !scrub_compose, Z.max_comm.
Qed.

(** X8.  The loop of [scrubber]: after turns of the ticker the last of which
    reads the latest time, the limiter is the one that a single [scrub] at
    that time leaves; [ctx.Done()] ends the loop with no scrub of its own,
    and what is selected after it has no effect. *)
Theorem scrubber_last_tick (m : Limiter) (ticks : list Z) (T : Time)
    (rest : list (selected Z unit))
    (Hlatest : Forall (λ t, t ≤ T) ticks) :
  scrubber m ((ticker_C <$> ticks) ++ [ticker_C T]) = (scrub m T, false)
  ∧ scrubber m ((ticker_C <$> ticks) ++ ticker_C T :: ctx_Done tt :: rest)
    = (scrub m T, true)
  ∧ scrubber m (ctx_Done tt :: rest) = (m, true).
Proof.
  split; [|split]; [| |done]; by rewrite scrubber_ticks_then.
Qed.

(** ** More on the cache *)

Lemma readCache_loaded (m : Limiter) (fs : FS) (now : Time) (d : Bytes)
    (s : gmap string Z) :
  statefile m ≠ "" → seen m = ∅ →
  files fs !! statefile m = Some d →
  json_Unmarshal d ∅ = (s, None) →
  readCache m fs now None
  = (set_seen (scrub_entries (killtime m now) s) m,
     called (CallReadFile (statefile m)) fs, None).
Proof.
  intros Hsf He Hfile Hun. unfold readCache, ioutil_ReadFile.
  destruct (decide (statefile m = "")) as [|_]; [done|].
  rewrite He, map_size_empty. destruct (decide (0 < 0)%nat); [lia|].
  by rewrite Hfile, Hun.
Qed.

(** X9.  [writeCache] leaves every other file alone: whatever happens, a
    path that is neither the state file nor the temporary file holds after
    the call what it held before. *)
Theorem writeCache_other_files (m : Limiter) (fs : FS) (o : WriteOracle) (p : string)
    (Hsf : p ≠ statefile m) (Htmp : tempfile_outcome o ≠ Ok p) :
  files (writeCache m fs o).1 !! p = files fs !! p.
Proof.
  unfold writeCache.
  destruct (decide (size (seen m) = 0%nat)); [done|].
  destruct (json_Marshal (seen m)) as [content|e']; [|done].
  unfold ioutil_TempFile.
  destruct (tempfile_outcome o) as [tmp|e']; [|done].
  assert (Hne : tmp ≠ p) by congruence.
  destruct (files fs !! tmp) eqn:Hfree; [done|].
  unfold File_Write. destruct (write_fault o) as [[wn we]|]; simpl.
  { by rewrite !lookup_insert_ne. }
  unfold File_Close. destruct (close_fault o); simpl.
  { by rewrite !lookup_insert_ne. }
  unfold os_Rename. destruct (rename_fault o); simpl.
  { by rewrite !lookup_insert_ne. }
  destruct (decide (statefile m = "")); simpl.
  { by rewrite !lookup_insert_ne. }
  rewrite !lookup_insert_eq. simpl.
  rewrite lookup_insert_ne, lookup_delete_ne by done.
  by rewrite !lookup_insert_ne.
Qed.

(** X10.  The temporary file of [writeCache]: once it is created, a call
    that fails leaves it behind, holding the part of the serialization that
    was written (all of it when the close or the rename failed); a call that
    succeeds has moved it to the state file. *)
Theorem writeCache_temporary_file (m : Limiter) (fs : FS) (o : WriteOracle)
    (tmp : string) (content : Bytes)
    (Hne : seen m ≠ ∅)
    (Hmarshal : json_Marshal (seen m) = Ok content)
    (Htmp : tempfile_outcome o = Ok tmp)
    (Hfree : files fs !! tmp = None)
    (Hother : tmp ≠ statefile m) :
  let out := writeCache m fs o in
  match out.2 with
  | Some _ =>
      ∃ n, files out.1 !! tmp = Some (take n content)
           ∧ (write_fault o = None → take n content = content)
  | None => files out.1 !! tmp = None
  end.
Proof.
  simpl. unfold writeCache.
  destruct (decide (size (seen m) = 0%nat)) as [Hz|_].
  { by apply map_size_empty_iff in Hz. }
  rewrite Hmarshal. unfold ioutil_TempFile. rewrite Htmp, Hfree.
  unfold File_Write. destruct (write_fault o) as [[wn we]|]; simpl.
  { exists wn. by rewrite !lookup_insert_eq. }
  unfold File_Close. destruct (close_fault o); simpl.
  { exists (length content). rewrite !lookup_insert_eq. simpl.
    by rewrite firstn_all. }
  unfold os_Rename. destruct (rename_fault o); simpl.
  { exists (length content). rewrite !lookup_insert_eq. simpl.
    by rewrite firstn_all. }
  destruct (decide (statefile m = "")); simpl.
  { exists (length content). rewrite !lookup_insert_eq. simpl.
    by rewrite firstn_all. }
  rewrite !lookup_insert_eq. simpl.
  rewrite lookup_insert_ne by done. by rewrite lookup_delete_eq.
Qed.

(** X11.  [readCache] only reads: no file is changed by it, and the one call
    that it can make on the file system is the read of the state file. *)
Theorem readCache_reads_only (m : Limiter) (fs : FS) (now : Time) (fault : option error) :
  let out := readCache m fs now fault in
  files out.1.2 = files fs
  ∧ (calls out.1.2 = calls fs
     ∨ calls out.1.2 = CallReadFile (statefile m) :: calls fs)
  ∧ (key out.1.1, age out.1.1, topic out.1.1, statefile out.1.1)
    = (key m, age m, topic m, statefile m).
Proof.
  simpl. unfold readCache, ioutil_ReadFile.
  destruct (decide (statefile m = "")); [by auto|].
  destruct (decide (0 < size (seen m))%nat); [by auto|].
  destruct fault; simpl; [by auto|].
  destruct (files fs !! statefile m); simpl; [|by auto].
  destruct (json_Unmarshal _ _) as [s [e|]]; simpl; by auto.
Qed.

(** X12.  A state file that does not decode: [readCache] returns the error
    of [json.Unmarshal], and the store holds what the decoding had stored
    when it failed, none of it pruned. *)
Theorem readCache_decode_error (m : Limiter) (fs : FS) (now : Time) (d : Bytes)
    (s : gmap string Z) (e : error)
    (Hsf : statefile m ≠ "") (Hempty : seen m = ∅)
    (Hfile : files fs !! statefile m = Some d)
    (Hun : json_Unmarshal d ∅ = (s, Some e)) :
  readCache m fs now None
  = (set_seen s m, called (CallReadFile (statefile m)) fs, Some e).
Proof.
  unfold readCache, ioutil_ReadFile.
  destruct (decide (statefile m = "")) as [|_]; [done|].
  rewrite Hempty, map_size_empty. destruct (decide (0 < 0)%nat); [lia|].
  by rewrite Hfile, Hun.
Qed.

(** X13.  [Configure] returns nil whatever the load does, sets the key, the
    window and the topic, starts from an empty store whatever the receiver
    held, and changes no file; when the read of the state file fails the
    limiter starts empty. *)
Theorem Configure_starts_over (m : Limiter) (k : string) (a : Duration) (tp : string)
    (fs : FS) (now : Time) (fault : option error) (s : gmap string Z) :
  let out := Configure m k a tp fs now fault in
  out.2 = None
  ∧ (key out.1.1, age out.1.1, topic out.1.1) = (k, a, tp)
  ∧ statefile out.1.1
    = (if decide (StateDirectory = "") then statefile m
       else filepath_Join StateDirectory (tp +:+ ".json"))
  ∧ out = Configure (set_seen s m) k a tp fs now fault
  ∧ files out.1.2 = files fs
  ∧ (is_Some fault ∨ files fs !! statefile out.1.1 = None → seen out.1.1 = ∅).
Proof.
  simpl. unfold Configure. simpl.
  set (sf := if decide (StateDirectory = "") then statefile m
             else filepath_Join StateDirectory (tp +:+ ".json")).
  set (m1 := {| key := k; age := a; topic := tp; statefile := sf; seen := ∅ |}).
  pose proof (readCache_reads_only m1 fs now fault) as H. cbv zeta in H.
  destruct H as (Hfiles & _ & Hcfg).
  assert (Hseen : is_Some fault ∨ files fs !! sf = None →
                  seen (readCache m1 fs now fault).1.1 = ∅).
  { unfold readCache, ioutil_ReadFile. simpl.
    destruct (decide (sf = "")); [done|].
    rewrite map_size_empty. destruct (decide (0 < 0)%nat); [lia|].
    intros [[e ->]| ->]; [done|]. by destruct fault. }
  destruct (readCache m1 fs now fault) as [[m2 fs'] r]. simpl in *.
  injection Hcfg as Hk Ha Ht Hs. rewrite Hk, Ha, Ht, Hs.
  repeat split; done.
Qed.

(** X14.  A restart changes no decision.  Let a limiter with a state file
    and a store that is not empty write its cache, and let a limiter be
    configured afterwards with the same key, window and topic: what
    [Configure] leaves is what [scrub] leaves of the first limiter, and
    every decision at the time of the load is the decision that the first
    limiter takes.  The window is in the range where the kill time does not
    wrap around, and the codec decodes what it encoded for this map. *)
Theorem restart_keeps_decisions (m m0 : Limiter) (fs : FS) (o : WriteOracle)
    (now : Time) (content : Bytes)
    (Hdir : StateDirectory ≠ "")
    (Hpath : statefile m = filepath_Join StateDirectory (topic m +:+ ".json"))
    (Hne : seen m ≠ ∅)
    (Hlo : MinInt64 < age m) (Hhi : age m ≤ MaxInt64 + 1 - 10 * Minute)
    (Hwritten : (writeCache m fs o).2 = None)
    (Hmarshal : json_Marshal (seen m) = Ok content)
    (Hunmarshal : json_Unmarshal content ∅ = (seen m, None)) :
  let out := Configure m0 (key m) (age m) (topic m) (writeCache m fs o).1 now None in
  out.2 = None
  ∧ out.1.1 = scrub m now
  ∧ seen out.1.1 = prune_spec (age m) now (seen m)
  ∧ (∀ v, shouldProcess out.1.1 now v = shouldProcess m now v).
Proof.
  simpl. destruct (writeCache_success m fs o Hne Hwritten) as (Hsf & c' & Hc' & Hfile).
  assert (c' = content) as -> by congruence.
  unfold Configure. destruct (decide (StateDirectory = "")) as [|_]; [done|].
  rewrite <- Hpath.
  change {| key := key m; age := age m; topic := topic m;
            statefile := statefile m; seen := ∅ |} with (set_seen ∅ m).
  rewrite (readCache_loaded (set_seen ∅ m) _ now content (seen m)) by done.
  change (set_seen (scrub_entries (killtime (set_seen ∅ m) now) (seen m))
            (set_seen ∅ m)) with (scrub m now).
  simpl. split; [done|]. split; [done|]. split.
  - by apply scrub_entries_prune_spec.
  - intros v. by apply scrub_entries_decision.
Qed.

(** ** The loop of the cacher *)

(** One [writeCache] on the store [s]: the state file is as before, or holds
    the serialization of [s]. *)
Lemma writeCache_turn (m : Limiter) (s : gmap string Z) (fs : FS) (o : WriteOracle) :
  tempfile_outcome o ≠ Ok (statefile m) →
  files (writeCache (set_seen s m) fs o).1 !! statefile m = files fs !! statefile m
  ∨ (s ≠ ∅ ∧ ∃ content, json_Marshal s = Ok content
       ∧ files (writeCache (set_seen s m) fs o).1 !! statefile m = Some content).
Proof.
  intros Hother.
  destruct ((writeCache (set_seen s m) fs o).2) as [e|] eqn:Hr.
  - left. by apply (writeCache_failure (set_seen s m) fs o e).
  - destruct (decide (s = ∅)) as [->|Hne].
    + left. by rewrite writeCache_empty.
    + right. split; [done|].
      by destruct (writeCache_success (set_seen s m) fs o Hne Hr) as (_ & H).
Qed.

Lemma cacher_loop_state_file (m : Limiter)
    (turns : list (selected (gmap string Z * WriteOracle) (gmap string Z * WriteOracle)))
    (fs : FS) :
  (∀ s o, ticker_C (s, o) ∈ turns ∨ ctx_Done (s, o) ∈ turns →
          tempfile_outcome o ≠ Ok (statefile m)) →
  files (cacher_loop m fs turns).1 !! statefile m = files fs !! statefile m
  ∨ ∃ s o content,
      (ticker_C (s, o) ∈ turns ∨ ctx_Done (s, o) ∈ turns)
      ∧ s ≠ ∅ ∧ json_Marshal s = Ok content
      ∧ files (cacher_loop m fs turns).1 !! statefile m = Some content.
Proof.
  revert fs. induction turns as [|[[s o]|[s o]] rest IH]; intros fs Hother.
  - by left.
  - simpl.
    destruct (IH (writeCache (set_seen s m) fs o).1) as [Hsame|(s' & o' & c' & Hin & H)].
    { intros s' o' Hin. apply (Hother s' o').
      destruct Hin as [Hin|Hin]; [left|right]; apply elem_of_cons; by right. }
    + destruct (writeCache_turn m s fs o) as [Hkeep|(Hne & c' & Hc & Hfile)].
      { apply (Hother s o). left. apply elem_of_cons. by left. }
      * left. by rewrite Hsame.
      * right. exists s, o, c'. rewrite Hsame.
        split; [left; apply elem_of_cons; by left|done].
    + right. exists s', o', c'. split; [|done].
      destruct Hin as [Hin|Hin]; [left|right]; apply elem_of_cons; by right.
  - simpl.
    destruct (writeCache_turn m s fs o) as [Hkeep|(Hne & c' & Hc & Hfile)].
    { apply (Hother s o). right. apply elem_of_cons. by left. }
    + by left.
    + right. exists s, o, c'.
      split; [right; apply elem_of_cons; by left|done].
Qed.

Lemma cacher_loop_ticks_then
    (ticks : list (gmap string Z * WriteOracle)) (m : Limiter) (fs : FS)
    (rest : list (selected (gmap string Z * WriteOracle) (gmap string Z * WriteOracle))) :
  cacher_loop m fs ((ticker_C <$> ticks) ++ rest)
  = cacher_loop m (cacher_loop m fs (ticker_C <$> ticks)).1 rest.
Proof.
  revert fs. induction ticks as [|[s o] ticks IH]; intros fs; [done|].
  simpl. apply IH.
Qed.

(** X15.  The state file during the life of the cacher: whatever the store
    is at each turn and whatever fails, after any number of turns the state
    file is as it was when the loop started, or holds the whole
    serialization of the store of one of the turns, a store that was not
    empty.  The temporary files are assumed to be other files than the state
    file. *)
Theorem cacher_state_file (m : Limiter) (fs : FS)
    (turns : list (selected (gmap string Z * WriteOracle) (gmap string Z * WriteOracle)))
    (Hother : ∀ s o, ticker_C (s, o) ∈ turns ∨ ctx_Done (s, o) ∈ turns →
                     tempfile_outcome o ≠ Ok (statefile m)) :
  files (cacher m fs turns).1 !! statefile m = files fs !! statefile m
  ∨ ∃ s o content,
      (ticker_C (s, o) ∈ turns ∨ ctx_Done (s, o) ∈ turns)
      ∧ s ≠ ∅ ∧ json_Marshal s = Ok content
      ∧ files (cacher m fs turns).1 !! statefile m = Some content.
Proof.
  unfold cacher. destruct (decide (statefile m = "")); [by left|].
  by apply cacher_loop_state_file.
Qed.

(** X16.  The cacher goes on after a failure and flushes once at the end:
    with a state file configured, the turns of the ticker, failed or not,
    lead to [ctx.Done()], where [writeCache] runs once more on the store as
    it is then and the loop returns; what is selected later has no effect.
    When that last [writeCache] succeeds on a store that is not empty, the
    state file holds the serialization of that store.  Without a state file
    the loop returns at once and makes no call. *)
Theorem cacher_final_flush (m : Limiter) (fs : FS)
    (ticks : list (gmap string Z * WriteOracle))
    (s : gmap string Z) (o : WriteOracle)
    (rest : list (selected (gmap string Z * WriteOracle) (gmap string Z * WriteOracle))) :
  let turns := (ticker_C <$> ticks) ++ ctx_Done (s, o) :: rest in
  let before := (cacher_loop m fs (ticker_C <$> ticks)).1 in
  (statefile m = "" → cacher m fs turns = (fs, true))
  ∧ (statefile m ≠ "" →
     cacher m fs turns = ((writeCache (set_seen s m) before o).1, true)
     ∧ (s ≠ ∅ → (writeCache (set_seen s m) before o).2 = None →
        ∃ content, json_Marshal s = Ok content
          ∧ files (cacher m fs turns).1 !! statefile m = Some content)).
Proof.
  simpl. unfold cacher. split.
  - intros Hsf. by destruct (decide (statefile m = "")).
  - intros Hsf. destruct (decide (statefile m = "")) as [|_]; [done|].
    rewrite cacher_loop_ticks_then. simpl. split; [done|].
    intros Hne Hr.
    by destruct (writeCache_success (set_seen s m) _ o Hne Hr) as (_ & H).
Qed.

(** ** Once per window *)

(** The key and the window of the limiter are the same after any run. *)
Lemma run_ops_config (ops : list limiter_op) (st : Limiter * Metrics) :
  key (run_ops st ops).1 = key st.1 ∧ age (run_ops st ops).1 = age st.1.
Proof.
  revert st. induction ops as [|o ops IH]; intros st; [done|].
  unfold run_ops in *. simpl. destruct (IH (apply_op st o)) as [-> ->].
  destruct o as [msg f t1 t2|now]; simpl; [|done].
  by destruct (ProcessAndRecord_limiter st.1 st.2 msg f t1 t2) as [-> | ->].
Qed.

(** Through a run whose times are between [since] and [until], a value
    stored at [since] or later is still stored so, or [until] is more than
    the window after [since]. *)
Lemma run_ops_entry (v : string) (since until : Time) (ops : list limiter_op)
    (st : Limiter * Metrics) :
  MinInt64 < age st.1 → age st.1 ≤ MaxInt64 + 1 - 10 * Minute →
  Forall (λ t, since ≤ t ≤ until) (flat_map op_times ops) →
  (∃ t, seen st.1 !! v = Some t ∧ since ≤ t) ∨ until - since > age st.1 →
  (∃ t, seen (run_ops st ops).1 !! v = Some t ∧ since ≤ t)
  ∨ until - since > age st.1.
Proof.
  revert st. induction ops as [|o ops IH]; intros st Hlo Hhi Htimes Hinv; [done|].
  simpl in Htimes. apply Forall_app in Htimes as [Ho Hrest].
  unfold run_ops in *. simpl.
  assert (Hcfg : age (apply_op st o).1 = age st.1).
  { destruct o as [msg f t1 t2|now]; simpl; [|done].
    by destruct (ProcessAndRecord_limiter st.1 st.2 msg f t1 t2) as [-> | ->]. }
  rewrite <- Hcfg. apply IH; rewrite ?Hcfg; try done.
  destruct Hinv as [(t & Ht & Hle)|Hfar]; [|by right].
  destruct o as [msg f t1 t2|now]; simpl.
  - destruct (ProcessAndRecord_limiter st.1 st.2 msg f t1 t2) as [-> | ->].
    + left. eauto.
    + left. simpl.
      destruct (decide (gjson_GetBytes_String (Data msg) (key st.1) = v)) as [->|Hne].
      * exists t2. rewrite lookup_insert_eq. split; [done|].
        simpl in Ho. apply Forall_cons in Ho as [_ Ho].
        apply Forall_cons in Ho as [Ho _]. lia.
      * exists t. by rewrite lookup_insert_ne.
  - rewrite scrub_entries_lookup, Ht, killtime_exact by done.
    unfold Time_Before. case_bool_decide as Hold; [|left; eauto].
    right. simpl in Ho. apply Forall_cons in Ho as [Ho _].
    unfold Minute, Second, Nanosecond in *. lia.
Qed.

(** X17.  Once per window and value.  Let a call process a value and record
    it, its callback having succeeded; let calls that do not overlap and
    scrubs follow, at times not before that recording; if a later call, at a
    time not before any of these, decides to process the same value, then
    more than [age] has passed since that recording.  The window is in the
    range where the kill time of [scrub] does not wrap around. *)
Theorem once_per_window (m : Limiter) (c : Metrics) (msgA msgB : Msg)
    (fA : Msg → bool → option error) (tA tA' tB : Time) (ops : list limiter_op)
    (Hk : key m ≠ "")
    (Hv : gjson_GetBytes_String (Data msgA) (key m) ≠ "")
    (Hsame : gjson_GetBytes_String (Data msgB) (key m)
             = gjson_GetBytes_String (Data msgA) (key m))
    (Hlo : MinInt64 < age m) (Hhi : age m ≤ MaxInt64 + 1 - 10 * Minute)
    (HpA : shouldProcess m tA (gjson_GetBytes_String (Data msgA) (key m)) = true)
    (HfA : fA msgA true = None)
    (Htimes : Forall (λ t, tA' ≤ t ≤ tB) (flat_map op_times ops)) :
  let st := run_ops (ProcessAndRecord m c msgA fA tA tA').1 ops in
  process_flag st.1 msgB tB = true → tB - tA' > age m.
Proof.
  cbv zeta. rewrite ProcessAndRecord_records by done.
  set (v := gjson_GetBytes_String (Data msgA) (key m)) in *.
  change ((set_seen (<[v := tA']> (seen m)) m, inc_passed c, @None error).1)
    with (set_seen (<[v := tA']> (seen m)) m, inc_passed c).
  set (st0 := (set_seen (<[v := tA']> (seen m)) m, inc_passed c)).
  destruct (run_ops_config ops st0) as [Hkey Hage].
  pose proof (run_ops_entry v tA' tB ops st0 Hlo Hhi Htimes) as Hentry.
  change (key st0.1) with (key m) in Hkey.
  change (age st0.1) with (age m) in Hage, Hentry.
  change (seen st0.1) with (<[v := tA']> (seen m)) in Hentry.
  unfold process_flag. rewrite Hkey.
  destruct (decide (key m = "")) as [|_]; [done|].
  rewrite Hsame. fold v. unfold shouldProcess.
  destruct (decide (v = "")) as [|_]; [done|].
  destruct Hentry as [(t & Ht & Hle)|Hfar]; [| |done].
  { left. exists tA'. by rewrite lookup_insert_eq. }
  rewrite Ht, Hage.
  assert (Hr : int64 (age m)).
  { unfold int64, MinInt64, MaxInt64, Minute, Second, Nanosecond in *. lia. }
  rewrite oldest_exact by (done || lia).
  unfold Time_Before. case_bool_decide; [lia|done].
Qed.

(** ** First sightings *)

Lemma run_ops_cons (st : Limiter * Metrics) (o : limiter_op) (ops : list limiter_op) :
  run_ops st (o :: ops) = run_ops (apply_op st o) ops.
Proof. done. Qed.

(** Calls for other values leave the entry of a value as it is. *)
Lemma calls_with_frame (f : Msg → bool → option error) (cs : list (Msg * Z * Z))
    (st : Limiter * Metrics) (w : string) :
  w ∉ call_value (key st.1) <$> cs →
  seen (run_ops st (calls_with f cs)).1 !! w = seen st.1 !! w.
Proof.
  revert st. induction cs as [|[[msg t1] t2] cs IH]; intros st Hw; [done|].
  simpl in Hw. apply not_elem_of_cons in Hw as [Hne Hw].
  change (calls_with f ((msg, t1, t2) :: cs))
    with (OpProcessAndRecord msg f t1 t2 :: calls_with f cs).
  rewrite run_ops_cons. unfold call_value in Hne. simpl in Hne. simpl apply_op.
  destruct (ProcessAndRecord_limiter st.1 st.2 msg f t1 t2) as [E|E].
  - rewrite IH; rewrite E; done.
  - rewrite IH; rewrite E; simpl; [by rewrite lookup_insert_ne|done].
Qed.

(** X18.  First sightings are all processed and recorded.  With a key
    configured, calls that follow one another, whose values are pairwise
    different and none of which is in the map, and whose callback succeeds
    when it is handed [true], are all processed: each value is stored with
    the time at which its call recorded it, the map has one more entry for
    each call, and each call counts as passed, none as skipped or failed. *)
Theorem first_sightings_recorded (f : Msg → bool → option error)
    (cs : list (Msg * Z * Z)) (st : Limiter * Metrics)
    (Hk : key st.1 ≠ "")
    (Hdistinct : NoDup (call_value (key st.1) <$> cs))
    (Hnew : Forall (λ c, seen st.1 !! call_value (key st.1) c = None) cs)
    (Hf : Forall (λ c, f c.1.1 true = None) cs) :
  let st' := run_ops st (calls_with f cs) in
  Forall (λ c, seen st'.1 !! call_value (key st.1) c = Some c.2) cs
  ∧ size (seen st'.1) = (size (seen st.1) + length cs)%nat
  ∧ passedCtr st'.2 = (passedCtr st.2 + length cs)%nat
  ∧ skippedCtr st'.2 = skippedCtr st.2
  ∧ errCtr st'.2 = errCtr st.2.
Proof.
  cbv zeta. revert st Hk Hdistinct Hnew Hf.
  induction cs as [|[[msg t1] t2] cs IH]; intros st Hk Hdistinct Hnew Hf.
  { simpl. repeat split; (done || lia). }
  apply Forall_cons in Hnew as [Hnew1 Hnew].
  apply Forall_cons in Hf as [Hf1 Hf].
  simpl in Hdistinct. apply NoDup_cons in Hdistinct as [Hfresh Hdistinct].
  unfold call_value in Hnew1, Hfresh. simpl in Hnew1, Hf1, Hfresh.
  set (v := gjson_GetBytes_String (Data msg) (key st.1)) in *.
  assert (Hp : shouldProcess st.1 t1 v = true).
  { unfold shouldProcess. rewrite Hnew1. by destruct (decide (v = "")). }
  assert (Hstep : apply_op st (OpProcessAndRecord msg f t1 t2)
                  = (set_seen (<[v := t2]> (seen st.1)) st.1, inc_passed st.2)).
  { simpl. by rewrite ProcessAndRecord_records. }
  change (calls_with f ((msg, t1, t2) :: cs))
    with (OpProcessAndRecord msg f t1 t2 :: calls_with f cs).
  rewrite run_ops_cons, Hstep.
  set (st1 := (set_seen (<[v := t2]> (seen st.1)) st.1, inc_passed st.2)).
  destruct (IH st1) as (Hall & Hsize & Hpass & Hskip & Herr); try done.
  { apply Forall_forall. intros c Hc. simpl.
    rewrite lookup_insert_ne.
    - by apply (proj1 (Forall_forall _ _) Hnew).
    - intros E. apply Hfresh. rewrite E. by apply list_elem_of_fmap_2. }
  change (key st1.1) with (key st.1) in Hall.
  split; [|split; [|split; [|split]]].
  - apply Forall_cons. split; [|done].
    unfold call_value. simpl. fold v.
    rewrite (calls_with_frame f cs st1 v) by done.
    simpl. by rewrite lookup_insert_eq.
  - rewrite Hsize. simpl. rewrite map_size_insert_None by done. lia.
  - rewrite Hpass. simpl. lia.
  - by rewrite Hskip.
  - by rewrite Herr.
Qed.

End Limiter.

(** ** Instances and counterexamples *)

Lemma shouldProcess_decision_witness :
  let m := example_limiter (5 * Second) {[ "a" := 10 * Second ]} in
  int64 (age m) ∧ age m ≠ MinInt64
  ∧ (shouldProcess m (20 * Second) "a" = true ↔ 20 * Second - 10 * Second > age m)
  ∧ (shouldProcess m (12 * Second) "a" = false ↔ 12 * Second - 10 * Second ≤ age m).
Proof.
  set (m := example_limiter (5 * Second) {[ "a" := 10 * Second ]}). simpl.
  assert (Hr : int64 (age m)) by (by vm_compute).
  assert (Hm : age m ≠ MinInt64) by (by vm_compute).
  split; [done|]. split; [done|]. split.
  - apply (shouldProcess_decision m (20 * Second) "a" Hr Hm); by vm_compute.
  - apply (shouldProcess_decision m (12 * Second) "a" Hr Hm); by vm_compute.
Defined.

(** C1 as stated fails for the least window.  With [age = MinInt64] the
    product [-1 * age] wraps around to [MinInt64], so that [oldest] lies
    [2 ^ 63] nanoseconds before [now]: a value last seen at [now] is not
    before it and is suppressed, although the time elapsed, zero, is
    strictly greater than the window. *)
Lemma shouldProcess_least_window :
  let m := example_limiter MinInt64 {[ "a" := 0 ]} in
  let now := 0 in
  int64 (age m)
  ∧ seen m !! "a" = Some 0
  ∧ now - 0 > age m
  ∧ Time_Add now (Duration_mul (-1) (age m)) = now + MinInt64
  ∧ shouldProcess m now "a" = false.
Proof. repeat split; by vm_compute. Qed.

Lemma shouldProcess_at_window_witness :
  let m := example_limiter (5 * Second) {[ "a" := 15 * Second ]} in
  int64 (age m) ∧ 20 * Second - 15 * Second = age m
  ∧ shouldProcess m (20 * Second) "a" = false.
Proof.
  set (m := example_limiter (5 * Second) {[ "a" := 15 * Second ]}). simpl.
  assert (Hr : int64 (age m)) by (by vm_compute).
  split; [done|]. split; [reflexivity|].
  apply (shouldProcess_at_window m (20 * Second) "a" (15 * Second) Hr);
    by vm_compute.
Defined.

Lemma scrub_keeps_decision_witness :
  let m := example_limiter (5 * Second) {[ "a" := 0; "b" := 1000 * Second ]} in
  let now := 1000 * Second in
  MinInt64 < age m ∧ age m ≤ MaxInt64 + 1 - 10 * Minute
  ∧ seen (scrub m now) = {[ "b" := 1000 * Second ]}
  ∧ shouldProcess (scrub m now) now "a" = shouldProcess m now "a".
Proof.
  set (m := example_limiter (5 * Second) {[ "a" := 0; "b" := 1000 * Second ]}).
  simpl.
  assert (Hlo : MinInt64 < age m) by (by vm_compute).
  assert (Hhi : age m ≤ MaxInt64 + 1 - 10 * Minute) by (by vm_compute).
  split; [done|]. split; [done|]. split; [by vm_compute|].
  exact (scrub_keeps_decision m (1000 * Second) "a" Hlo Hhi).
Defined.

(** C10 as stated fails for the longest windows.  With [age = MaxInt64],
    [-1 * age] is [MinInt64 + 1] and subtracting ten minutes from it wraps
    around to a large positive offset: the kill time is far in the future
    and [scrub] deletes an entry seen one second ago, whose decision was
    false and is true afterwards. *)
Lemma scrub_changes_decision_longest_window :
  let m := example_limiter MaxInt64 {[ "a" := 0 ]} in
  let now := Second in
  int64 (age m)
  ∧ killtime m now = now + (MaxInt64 + 2 - 10 * Minute)
  ∧ seen (scrub m now) = ∅
  ∧ shouldProcess m now "a" = false
  ∧ shouldProcess (scrub m now) now "a" = true.
Proof. repeat split; by vm_compute. Qed.

Lemma ProcessAndRecord_empty_value_witness :
  let m := example_limiter (5 * Second) {[ "a" := 3 ]} in
  let out := ProcessAndRecord no_such_field m no_metrics example_msg succeed 6 7 in
  key m ≠ "" ∧ no_such_field (Data example_msg) (key m) = ""
  ∧ succeed example_msg true = None
  ∧ seen out.1.1 = {[ "" := 7; "a" := 3 ]}
  ∧ shouldProcess out.1.1 8 "" = shouldProcess m 8 "".
Proof.
  intros m out.
  assert (Hk : key m ≠ "") by done.
  pose proof (ProcessAndRecord_empty_value no_such_field m no_metrics example_msg
                succeed 6 7 Hk eq_refl eq_refl) as H.
  cbv zeta in H. destruct H as (Hout & _ & _ & Hdec).
  split; [done|]. split; [done|]. split; [done|]. split.
  - unfold out. rewrite Hout. by vm_compute.
  - apply Hdec.
Defined.

(** C3 as stated fails: the value extracted is empty, the callback succeeds,
    and the map, empty before the call, holds the key [""] after it. *)
Lemma ProcessAndRecord_empty_value_recorded :
  let m := example_limiter (5 * Second) ∅ in
  let out := ProcessAndRecord no_such_field m no_metrics example_msg succeed 6 7 in
  key m ≠ "" ∧ no_such_field (Data example_msg) (key m) = ""
  ∧ succeed example_msg (shouldProcess m 6 "") = None
  ∧ out.2 = None
  ∧ seen m !! "" = None
  ∧ seen out.1.1 !! "" = Some 7
  ∧ seen out.1.1 ≠ seen m.
Proof.
  simpl. repeat split; done.
Qed.

Lemma readCache_absent_file_witness :
  let m := example_limiter (5 * Second) ∅ in
  let out := readCache RefCodec.Unmarshal m (fs_of ∅) 0 None in
  statefile m ≠ "" ∧ files (fs_of ∅) !! statefile m = None
  ∧ (∃ e, out.2 = Some e) ∧ out.1.1 = m ∧ (seen m = ∅ → seen out.1.1 = ∅).
Proof.
  set (m := example_limiter (5 * Second) ∅). simpl.
  assert (Hsf : statefile m ≠ "") by done.
  assert (Habs : files (fs_of ∅) !! statefile m = None) by done.
  split; [done|]. split; [done|].
  exact (readCache_absent_file RefCodec.Unmarshal m (fs_of ∅) 0 None Hsf Habs).
Defined.

(** C6 as stated fails: the state file is configured and absent, nothing
    else goes wrong, and [readCache] returns the error of [ioutil.ReadFile]. *)
Lemma readCache_absent_file_is_error :
  let m := example_limiter (5 * Second) ∅ in
  let out := readCache RefCodec.Unmarshal m (fs_of ∅) 0 None in
  statefile m ≠ "" ∧ files (fs_of ∅) !! statefile m = None
  ∧ out.2 = Some "open /var/lib/sr/events.json: no such file or directory"
  ∧ out.2 ≠ None.
Proof. repeat split; done. Qed.

Lemma readCache_not_empty_witness :
  let m := example_limiter (5 * Second) {[ "a" := 3 ]} in
  let fs := fs_of {[ "/var/lib/sr/events.json" := encoded {[ "b" := 4 ]} ]} in
  statefile m ≠ "" ∧ seen m ≠ ∅
  ∧ readCache RefCodec.Unmarshal m fs 5 None
    = (m, fs, Some "last seen cache is not empty")
  ∧ calls (readCache RefCodec.Unmarshal m fs 5 None).1.2 = calls fs.
Proof.
  set (m := example_limiter (5 * Second) {[ "a" := 3 ]}). simpl.
  assert (Hsf : statefile m ≠ "") by done.
  assert (Hne : seen m ≠ ∅) by apply map_non_empty_singleton.
  split; [done|]. split; [done|].
  exact (readCache_not_empty RefCodec.Unmarshal m _ 5 None Hsf Hne).
Defined.

Lemma no_future_preserved_witness :
  let m := example_limiter (5 * Second) {[ "a" := 3 ]} in
  let m0 := example_limiter (5 * Second) ∅ in
  let fs := fs_of {[ "/var/lib/sr/events.json" := encoded {[ "b" := 4 ]} ]} in
  no_future 7 (seen m)
  ∧ no_future 7 (seen (ProcessAndRecord no_such_field m no_metrics example_msg
                         succeed 6 7).1.1)
  ∧ no_future 7 (RefCodec.Unmarshal (encoded {[ "b" := 4 ]}) ∅).1
  ∧ seen (readCache RefCodec.Unmarshal m0 fs 7 None).1.1 = {[ "b" := 4 ]}
  ∧ no_future 7 (seen (readCache RefCodec.Unmarshal m0 fs 7 None).1.1).
Proof.
  intros m m0 fs.
  destruct (no_future_preserved no_such_field RefCodec.Unmarshal) as [Hrec Hload].
  assert (Hm : no_future 7 (seen m)) by (unfold no_future; compute_done).
  assert (Hd : no_future 7 (RefCodec.Unmarshal (encoded {[ "b" := 4 ]}) ∅).1)
    by (unfold no_future; compute_done).
  split; [done|]. split; [by apply Hrec|]. split; [done|].
  split; [by vm_compute|].
  apply Hload.
  - unfold no_future. compute_done.
  - intros d Hfile. vm_compute in Hfile. injection Hfile as <-. exact Hd.
Defined.

(** C8 as stated fails for the load: the store is empty, the state file
    holds an instant after the time of the load, and [readCache] stores it. *)
Lemma readCache_loads_future_instant :
  let m := example_limiter (5 * Second) ∅ in
  let fs := fs_of {[ "/var/lib/sr/events.json" := encoded {[ "a" := 100 ]} ]} in
  let out := readCache RefCodec.Unmarshal m fs 0 None in
  no_future 0 (seen m)
  ∧ out.2 = None
  ∧ seen out.1.1 !! "a" = Some 100
  ∧ ¬ no_future 0 (seen out.1.1).
Proof.
  intros m fs out. split; [|split; [|split]].
  - unfold no_future. compute_done.
  - by vm_compute.
  - by vm_compute.
  - intros H. assert (Ha : seen out.1.1 !! "a" = Some 100) by (by vm_compute).
    apply H in Ha. lia.
Qed.

Lemma writeCache_atomic_witness :
  let m := example_limiter (5 * Second) {[ "a" := 3 ]} in
  let fs := fs_of {[ "/var/lib/sr/events.json" := encoded {[ "b" := 4 ]} ]} in
  let ok := no_faults "/var/lib/sr/memcache123" in
  let torn := {| tempfile_outcome := Ok "/var/lib/sr/memcache123";
                 write_fault := Some (2%nat, "no space left on device");
                 close_fault := None; rename_fault := None |} in
  tempfile_outcome ok ≠ Ok (statefile m)
  ∧ tempfile_outcome torn ≠ Ok (statefile m)
  ∧ (writeCache RefCodec.Marshal "/var/lib/sr" m fs ok).2 = None
  ∧ files (writeCache RefCodec.Marshal "/var/lib/sr" m fs ok).1 !! statefile m
    = Some (encoded {[ "a" := 3 ]})
  ∧ (writeCache RefCodec.Marshal "/var/lib/sr" m fs torn).2
    = Some "no space left on device"
  ∧ files (writeCache RefCodec.Marshal "/var/lib/sr" m fs torn).1 !! statefile m
    = Some (encoded {[ "b" := 4 ]}).
Proof.
  intros m fs ok torn.
  assert (Hok : tempfile_outcome ok ≠ Ok (statefile m)) by done.
  assert (Htorn : tempfile_outcome torn ≠ Ok (statefile m)) by done.
  pose proof (writeCache_atomic RefCodec.Marshal "/var/lib/sr" m fs ok Hok) as H1.
  pose proof (writeCache_atomic RefCodec.Marshal "/var/lib/sr" m fs torn Htorn) as H2.
  cbv zeta in H1, H2.
  destruct H1 as (_ & Hsucc & _). destruct H2 as (Hfail & _ & _).
  assert (Hr1 : (writeCache RefCodec.Marshal "/var/lib/sr" m fs ok).2 = None)
    by (by vm_compute).
  assert (Hr2 : (writeCache RefCodec.Marshal "/var/lib/sr" m fs torn).2
                = Some "no space left on device") by (by vm_compute).
  split; [done|]. split; [done|]. split; [done|]. split; [|split; [done|]].
  - destruct (Hsucc Hr1) as (content & Hc & ->); [apply map_non_empty_singleton|].
    f_equal. vm_compute in Hc. injection Hc as <-. by vm_compute.
  - rewrite (Hfail _ Hr2). by vm_compute.
Defined.

(** C5 as stated fails for its success clause: with an empty map
    [writeCache] returns nil and writes nothing, so that the state file,
    here absent, does not hold the serialization of the map. *)
Lemma writeCache_empty_map_writes_nothing :
  let m := example_limiter (5 * Second) ∅ in
  let out := writeCache RefCodec.Marshal "/var/lib/sr" m (fs_of ∅)
               (no_faults "/var/lib/sr/memcache123") in
  out.2 = None
  ∧ RefCodec.Marshal (seen m) = Ok [Byte.x04]
  ∧ files out.1 !! statefile m = None
  ∧ ¬ (∃ content, RefCodec.Marshal (seen m) = Ok content
         ∧ files out.1 !! statefile m = Some content).
Proof.
  intros m out. split; [by vm_compute|]. split; [by vm_compute|].
  split; [by vm_compute|].
  intros (content & _ & Hfile). vm_compute in Hfile. discriminate Hfile.
Qed.

Lemma cache_round_trip_witness :
  let m := example_limiter (5 * Second) {[ "a" := 0; "b" := 1000 * Second ]} in
  let o := no_faults "/var/lib/sr/memcache123" in
  let now := 1000 * Second in
  let fs' := (writeCache RefCodec.Marshal "/var/lib/sr" m (fs_of ∅) o).1 in
  seen m ≠ ∅ ∧ MinInt64 < age m ∧ age m ≤ MaxInt64 + 1 - 10 * Minute
  ∧ (writeCache RefCodec.Marshal "/var/lib/sr" m (fs_of ∅) o).2 = None
  ∧ RefCodec.Marshal (seen m) = Ok (encoded (seen m))
  ∧ RefCodec.Unmarshal (encoded (seen m)) ∅ = (seen m, None)
  ∧ prune_spec (age m) now (seen m) = {[ "b" := 1000 * Second ]}
  ∧ readCache RefCodec.Unmarshal (set_seen ∅ m) fs' now None
    = (set_seen (prune_spec (age m) now (seen m)) m,
       called (CallReadFile (statefile m)) fs', None).
Proof.
  intros m o now fs'.
  assert (Hne : seen m ≠ ∅) by apply insert_non_empty.
  assert (Hlo : MinInt64 < age m) by (by vm_compute).
  assert (Hhi : age m ≤ MaxInt64 + 1 - 10 * Minute) by (by vm_compute).
  assert (Hw : (writeCache RefCodec.Marshal "/var/lib/sr" m (fs_of ∅) o).2 = None)
    by (by vm_compute).
  assert (Hmar : RefCodec.Marshal (seen m) = Ok (encoded (seen m))) by (by vm_compute).
  assert (Hun : RefCodec.Unmarshal (encoded (seen m)) ∅ = (seen m, None))
    by (by vm_compute).
  split; [done|]. split; [done|]. split; [done|]. split; [done|].
  split; [done|]. split; [done|]. split; [by vm_compute|].
  exact (proj1 (cache_round_trip RefCodec.Marshal RefCodec.Unmarshal "/var/lib/sr"
                  m (fs_of ∅) o now _ Hne Hlo Hhi Hw Hmar Hun)).
Defined.

(** C4 as stated fails for the empty map: [writeCache] writes nothing, the
    state file of an earlier run is still there, and the load brings back
    its entry, which the map written did not have. *)
Lemma cache_round_trip_empty_map_stale_file :
  let m := example_limiter (5 * Second) ∅ in
  let fs := fs_of {[ "/var/lib/sr/events.json" := encoded {[ "a" := 0 ]} ]} in
  let w := writeCache RefCodec.Marshal "/var/lib/sr" m fs
             (no_faults "/var/lib/sr/memcache123") in
  let out := readCache RefCodec.Unmarshal (set_seen ∅ m) w.1 0 None in
  size (seen m) = 0%nat
  ∧ w = (fs, None)
  ∧ out.2 = None
  ∧ seen out.1.1 = {[ "a" := 0 ]}
  ∧ size (seen out.1.1) = 1%nat
  ∧ prune_spec (age m) 0 (seen m) = ∅
  ∧ seen out.1.1 ≠ prune_spec (age m) 0 (seen m).
Proof.
  intros m fs w out.
  assert (Hout : seen out.1.1 = {[ "a" := 0 ]}) by (by vm_compute).
  assert (Hp : prune_spec (age m) 0 (seen m) = ∅) by (by vm_compute).
  split; [done|]. split; [by vm_compute|]. split; [by vm_compute|].
  split; [done|]. split; [by vm_compute|]. split; [done|].
  rewrite Hout, Hp. apply map_non_empty_singleton.
Qed.

(** ** Instances of the further properties *)

Lemma window_after_record_witness :
  let m := example_limiter (5 * Second) ∅ in
  let m' := (ProcessAndRecord whole_payload m no_metrics (msg_of "x") succeed
               0 Second).1.1 in
  key m ≠ "" ∧ whole_payload (Data (msg_of "x")) (key m) ≠ ""
  ∧ int64 (age m) ∧ age m ≠ MinInt64
  ∧ shouldProcess m 0 (whole_payload (Data (msg_of "x")) (key m)) = true
  ∧ succeed (msg_of "x") true = None
  ∧ seen m' !! "x" = Some Second
  ∧ (shouldProcess m' (3 * Second) "x" = false ↔ 3 * Second - Second ≤ age m)
  ∧ (shouldProcess m' (3 * Second) "x" = true ↔ 3 * Second - Second > age m).
Proof.
  intros m m'.
  assert (Hk : key m ≠ "") by done.
  assert (Hv : whole_payload (Data (msg_of "x")) (key m) ≠ "") by done.
  assert (Hr : int64 (age m)) by (by vm_compute).
  assert (Hm : age m ≠ MinInt64) by (by vm_compute).
  assert (Hp : shouldProcess m 0 (whole_payload (Data (msg_of "x")) (key m)) = true)
    by reflexivity.
  do 6 (split; [done|]).
  exact (window_after_record whole_payload m no_metrics (msg_of "x") succeed
           0 Second (3 * Second) Hk Hv Hr Hm Hp eq_refl).
Defined.

Lemma ProcessAndRecord_other_values_witness :
  let m := example_limiter (5 * Second) {[ "y" := 0 ]} in
  let m' := (ProcessAndRecord whole_payload m no_metrics (msg_of "x") succeed
               Second Second).1.1 in
  "y" ≠ whole_payload (Data (msg_of "x")) (key m)
  ∧ seen m' !! "y" = seen m !! "y"
  ∧ (∀ now, shouldProcess m' now "y" = shouldProcess m now "y")
  ∧ (size (seen m) ≤ size (seen m') ≤ S (size (seen m)))%nat.
Proof.
  intros m m'.
  assert (Hw : "y" ≠ whole_payload (Data (msg_of "x")) (key m)) by done.
  split; [done|].
  exact (ProcessAndRecord_other_values whole_payload m no_metrics (msg_of "x")
           succeed Second Second "y" Hw).
Defined.

Lemma overlapping_calls_both_process_witness :
  let m := example_limiter (5 * Second) ∅ in
  let x := msg_of "x" in
  let dA := ProcessAndRecord_decide whole_payload m no_metrics x 0 in
  let dB := ProcessAndRecord_decide whole_payload m dA.1 x 1 in
  let eA := ProcessAndRecord_finish whole_payload m dB.1 x dA.2 (succeed x dA.2) 2 in
  let eB := ProcessAndRecord_finish whole_payload eA.1.1 eA.1.2 x dB.2
              (succeed x dB.2) 3 in
  let sA := ProcessAndRecord whole_payload m no_metrics x succeed 0 2 in
  key m ≠ "" ∧ whole_payload (Data x) (key m) ≠ ""
  ∧ seen m !! whole_payload (Data x) (key m) = None
  ∧ int64 (age m) ∧ age m ≠ MinInt64 ∧ 1 - 2 ≤ age m
  ∧ (dA.2 = true ∧ dB.2 = true)
  ∧ (eA.2 = None ∧ eB.2 = None)
  ∧ seen eB.1.1 = <[whole_payload (Data x) (key m) := 3]> (seen m)
  ∧ passedCtr eB.1.2 = S (S (passedCtr no_metrics))
  ∧ (ProcessAndRecord_decide whole_payload sA.1.1 sA.1.2 x 1).2 = false.
Proof.
  intros m x dA dB eA eB sA.
  assert (Hk : key m ≠ "") by done.
  assert (Hv : whole_payload (Data x) (key m) ≠ "") by done.
  assert (Hr : int64 (age m)) by (by vm_compute).
  assert (Hm : age m ≠ MinInt64) by (by vm_compute).
  assert (Hc : 1 - 2 ≤ age m) by (by vm_compute).
  do 6 (split; [done|]).
  exact (overlapping_calls_both_process whole_payload m no_metrics x x succeed
           succeed 0 1 2 3 Hk eq_refl Hv eq_refl eq_refl eq_refl Hr Hm Hc).
Defined.

Lemma scrub_keeps_recent_witness :
  let m := example_limiter (5 * Second) {[ "a" := 0; "b" := 1000 * Second ]} in
  let now := 1000 * Second in
  MinInt64 < age m ∧ age m ≤ MaxInt64 + 1 - 10 * Minute
  ∧ (seen (scrub m now) !! "b" = Some (1000 * Second)
     ↔ seen m !! "b" = Some (1000 * Second)
       ∧ now - 1000 * Second ≤ age m + 10 * Minute)
  ∧ (seen (scrub m now) !! "a" = Some 0
     ↔ seen m !! "a" = Some 0 ∧ now - 0 ≤ age m + 10 * Minute)
  ∧ seen (scrub m now) !! "a" = None.
Proof.
  intros m now.
  assert (Hlo : MinInt64 < age m) by (by vm_compute).
  assert (Hhi : age m ≤ MaxInt64 + 1 - 10 * Minute) by (by vm_compute).
  split; [done|]. split; [done|].
  split; [exact (scrub_keeps_recent m now "b" (1000 * Second) Hlo Hhi)|].
  split; [exact (scrub_keeps_recent m now "a" 0 Hlo Hhi)|].
  by vm_compute.
Defined.

Lemma scrubber_last_tick_witness :
  let m := example_limiter (5 * Second) {[ "a" := 0; "b" := 1000 * Second ]} in
  let ticks := [700 * Second; 800 * Second] in
  let T := 1000 * Second in
  Forall (λ t, t ≤ T) ticks
  ∧ scrubber m ((ticker_C <$> ticks) ++ [ticker_C T]) = (scrub m T, false)
  ∧ scrubber m ((ticker_C <$> ticks) ++ [ticker_C T; ctx_Done tt; ticker_C (2 * T)])
    = (scrub m T, true)
  ∧ seen (scrub m T) = {[ "b" := 1000 * Second ]}.
Proof.
  intros m ticks T.
  assert (Hl : Forall (λ t, t ≤ T) ticks).
  { repeat constructor; by vm_compute. }
  pose proof (scrubber_last_tick m ticks T [ticker_C (2 * T)] Hl) as (H1 & H2 & _).
  split; [done|]. split; [exact H1|]. split; [exact H2|]. by vm_compute.
Defined.

Lemma writeCache_other_files_witness :
  let m := example_limiter (5 * Second) {[ "a" := 3 ]} in
  let p := "/var/lib/sr/metrics.json" in
  let fs := fs_of {[ p := encoded {[ "b" := 4 ]} ]} in
  let o := no_faults "/var/lib/sr/memcache123" in
  p ≠ statefile m ∧ tempfile_outcome o ≠ Ok p
  ∧ (writeCache RefCodec.Marshal "/var/lib/sr" m fs o).2 = None
  ∧ files (writeCache RefCodec.Marshal "/var/lib/sr" m fs o).1 !! p = files fs !! p.
Proof.
  intros m p fs o.
  assert (Hsf : p ≠ statefile m) by done.
  assert (Htmp : tempfile_outcome o ≠ Ok p) by done.
  split; [done|]. split; [done|]. split; [by vm_compute|].
  exact (writeCache_other_files RefCodec.Marshal "/var/lib/sr" m fs o p Hsf Htmp).
Defined.

Lemma writeCache_temporary_file_witness :
  let m := example_limiter (5 * Second) {[ "a" := 3 ]} in
  let tmp := "/var/lib/sr/memcache123" in
  let out := writeCache RefCodec.Marshal "/var/lib/sr" m (fs_of ∅) (torn_write tmp) in
  let done := writeCache RefCodec.Marshal "/var/lib/sr" m (fs_of ∅) (no_faults tmp) in
  seen m ≠ ∅ ∧ RefCodec.Marshal (seen m) = Ok (encoded (seen m))
  ∧ files (fs_of ∅) !! tmp = None ∧ tmp ≠ statefile m
  ∧ out.2 = Some "no space left on device"
  ∧ files out.1 !! tmp = Some (take 2 (encoded (seen m)))
  ∧ done.2 = None
  ∧ files done.1 !! tmp = None.
Proof.
  intros m tmp out done.
  assert (Hne : seen m ≠ ∅) by apply map_non_empty_singleton.
  assert (Hmar : RefCodec.Marshal (seen m) = Ok (encoded (seen m))) by (by vm_compute).
  assert (Hfree : files (fs_of ∅) !! tmp = None) by done.
  assert (Hother : tmp ≠ statefile m) by done.
  pose proof (writeCache_temporary_file RefCodec.Marshal "/var/lib/sr" m (fs_of ∅)
                (no_faults tmp) tmp _ Hne Hmar eq_refl Hfree Hother) as H.
  cbv zeta in H. fold done in H.
  assert (Hd : done.2 = None) by (by vm_compute).
  rewrite Hd in H.
  do 4 (split; [done|]). split; [by vm_compute|]. split; [by vm_compute|].
  split; [done|exact H].
Defined.

Lemma readCache_decode_error_witness :
  let m := example_limiter (5 * Second) ∅ in
  let d := RefCodec.put_entry ("a", 3) ++ [Byte.x05] in
  let fs := fs_of {[ "/var/lib/sr/events.json" := d ]} in
  let now := 1000 * Second in
  statefile m ≠ "" ∧ seen m = ∅ ∧ files fs !! statefile m = Some d
  ∧ RefCodec.Unmarshal d ∅ = ({[ "a" := 3 ]}, Some "invalid character")
  ∧ readCache RefCodec.Unmarshal m fs now None
    = (set_seen {[ "a" := 3 ]} m, called (CallReadFile (statefile m)) fs,
       Some "invalid character")
  ∧ seen (scrub (set_seen {[ "a" := 3 ]} m) now) = ∅.
Proof.
  intros m d fs now.
  assert (Hsf : statefile m ≠ "") by done.
  assert (Hfile : files fs !! statefile m = Some d) by (by vm_compute).
  assert (Hun : RefCodec.Unmarshal d ∅ = ({[ "a" := 3 ]}, Some "invalid character"))
    by (by vm_compute).
  split; [done|]. split; [done|]. split; [done|]. split; [done|].
  split; [|by vm_compute].
  exact (readCache_decode_error RefCodec.Unmarshal m fs now d _ _ Hsf eq_refl Hfile Hun).
Defined.

Lemma restart_keeps_decisions_witness :
  let m := example_limiter (5 * Second) {[ "a" := 0; "b" := 1000 * Second ]} in
  let m0 := {| key := ""; age := 0; topic := ""; statefile := ""; seen := ∅ |} in
  let o := no_faults "/var/lib/sr/memcache123" in
  let now := 1000 * Second in
  let fs' := (writeCache RefCodec.Marshal "/var/lib/sr" m (fs_of ∅) o).1 in
  let out := Configure RefCodec.Unmarshal "/var/lib/sr" plain_Join m0
               (key m) (age m) (topic m) fs' now None in
  statefile m = plain_Join "/var/lib/sr" (topic m +:+ ".json")
  ∧ seen m ≠ ∅ ∧ MinInt64 < age m ∧ age m ≤ MaxInt64 + 1 - 10 * Minute
  ∧ (writeCache RefCodec.Marshal "/var/lib/sr" m (fs_of ∅) o).2 = None
  ∧ RefCodec.Unmarshal (encoded (seen m)) ∅ = (seen m, None)
  ∧ out.2 = None
  ∧ out.1.1 = scrub m now
  ∧ seen out.1.1 = prune_spec (age m) now (seen m)
  ∧ (∀ v, shouldProcess out.1.1 now v = shouldProcess m now v).
Proof.
  intros m m0 o now fs' out.
  assert (Hdir : "/var/lib/sr" ≠ "") by done.
  assert (Hpath : statefile m = plain_Join "/var/lib/sr" (topic m +:+ ".json"))
    by reflexivity.
  assert (Hne : seen m ≠ ∅) by apply insert_non_empty.
  assert (Hlo : MinInt64 < age m) by (by vm_compute).
  assert (Hhi : age m ≤ MaxInt64 + 1 - 10 * Minute) by (by vm_compute).
  assert (Hw : (writeCache RefCodec.Marshal "/var/lib/sr" m (fs_of ∅) o).2 = None)
    by (by vm_compute).
  assert (Hmar : RefCodec.Marshal (seen m) = Ok (encoded (seen m))) by (by vm_compute).
  assert (Hun : RefCodec.Unmarshal (encoded (seen m)) ∅ = (seen m, None))
    by (by vm_compute).
  do 6 (split; [done|]).
  exact (restart_keeps_decisions RefCodec.Marshal RefCodec.Unmarshal "/var/lib/sr"
           plain_Join m m0 (fs_of ∅) o now _ Hdir Hpath Hne Hlo Hhi Hw Hmar Hun).
Defined.

Lemma cacher_state_file_witness :
  let m := example_limiter (5 * Second) ∅ in
  let tmp := "/var/lib/sr/memcache123" in
  let old := encoded {[ "b" := 4 ]} in
  let fs := fs_of {[ "/var/lib/sr/events.json" := old ]} in
  let failing := [ticker_C ({[ "a" := 3 ]}, torn_write tmp)] in
  let turns := [ticker_C ({[ "a" := 3 ]}, torn_write tmp);
                ticker_C (∅, no_faults "/var/lib/sr/memcache456");
                ctx_Done ({[ "a" := 3; "c" := 5 ]}, no_faults "/var/lib/sr/memcache789")] in
  (∀ s o, ticker_C (s, o) ∈ turns ∨ ctx_Done (s, o) ∈ turns →
          tempfile_outcome o ≠ Ok (statefile m))
  ∧ files (cacher RefCodec.Marshal "/var/lib/sr" m fs failing).1 !! statefile m
    = Some old
  ∧ files (cacher RefCodec.Marshal "/var/lib/sr" m fs turns).1 !! statefile m
    = Some (encoded {[ "a" := 3; "c" := 5 ]})
  ∧ (files (cacher RefCodec.Marshal "/var/lib/sr" m fs turns).1 !! statefile m
     = files fs !! statefile m
     ∨ ∃ s o content,
         (ticker_C (s, o) ∈ turns ∨ ctx_Done (s, o) ∈ turns)
         ∧ s ≠ ∅ ∧ RefCodec.Marshal s = Ok content
         ∧ files (cacher RefCodec.Marshal "/var/lib/sr" m fs turns).1 !! statefile m
           = Some content).
Proof.
  intros m tmp old fs failing turns.
  assert (Hother : ∀ s o, ticker_C (s, o) ∈ turns ∨ ctx_Done (s, o) ∈ turns →
                          tempfile_outcome o ≠ Ok (statefile m)).
  { intros s o Hin. unfold turns in Hin. rewrite !elem_of_cons in Hin.
    rewrite !elem_of_nil in Hin.
    destruct Hin as [[H|[H|[H|[]]]]|[H|[H|[H|[]]]]]; by simplify_eq. }
  split; [done|]. split; [by vm_compute|]. split; [by vm_compute|].
  exact (cacher_state_file RefCodec.Marshal "/var/lib/sr" m fs turns Hother).
Defined.

Lemma once_per_window_witness :
  let m := example_limiter (5 * Second) ∅ in
  let x := msg_of "x" in
  let ops := [OpProcessAndRecord (msg_of "y") succeed (2 * Second) (2 * Second);
              OpScrub (3 * Second);
              OpProcessAndRecord x fail (7 * Second) (8 * Second)] in
  let st := run_ops whole_payload
              (ProcessAndRecord whole_payload m no_metrics x succeed 0 Second).1 ops in
  key m ≠ "" ∧ whole_payload (Data x) (key m) ≠ ""
  ∧ MinInt64 < age m ∧ age m ≤ MaxInt64 + 1 - 10 * Minute
  ∧ shouldProcess m 0 (whole_payload (Data x) (key m)) = true
  ∧ succeed x true = None
  ∧ Forall (λ t, Second ≤ t ≤ 9 * Second) (flat_map op_times ops)
  ∧ process_flag whole_payload st.1 x (9 * Second) = true
  ∧ 9 * Second - Second > age m.
Proof.
  intros m x ops st.
  assert (Hk : key m ≠ "") by done.
  assert (Hv : whole_payload (Data x) (key m) ≠ "") by done.
  assert (Hlo : MinInt64 < age m) by (by vm_compute).
  assert (Hhi : age m ≤ MaxInt64 + 1 - 10 * Minute) by (by vm_compute).
  assert (Hp : shouldProcess m 0 (whole_payload (Data x) (key m)) = true)
    by reflexivity.
  assert (Ht : Forall (λ t, Second ≤ t ≤ 9 * Second) (flat_map op_times ops)).
  { repeat constructor; by vm_compute. }
  assert (Hflag : process_flag whole_payload st.1 x (9 * Second) = true)
    by (by vm_compute).
  do 8 (split; [done|]).
  exact (once_per_window whole_payload m no_metrics x x succeed 0 Second
           (9 * Second) ops Hk Hv eq_refl Hlo Hhi Hp eq_refl Ht Hflag).
Defined.

Lemma first_sightings_recorded_witness :
  let st := (example_limiter (5 * Second) {[ "z" := 0 ]}, no_metrics) in
  let cs := [(msg_of "x", 1, 2); (msg_of "", 3, 4); (msg_of "y", 5, 6)] in
  let st' := run_ops whole_payload st (calls_with succeed cs) in
  key st.1 ≠ ""
  ∧ NoDup (call_value whole_payload (key st.1) <$> cs)
  ∧ Forall (λ c, seen st.1 !! call_value whole_payload (key st.1) c = None) cs
  ∧ Forall (λ c, succeed c.1.1 true = None) cs
  ∧ seen st'.1 = {[ "z" := 0; "x" := 2; "" := 4; "y" := 6 ]}
  ∧ size (seen st'.1) = (size (seen st.1) + length cs)%nat
  ∧ passedCtr st'.2 = (passedCtr st.2 + length cs)%nat
  ∧ skippedCtr st'.2 = skippedCtr st.2
  ∧ errCtr st'.2 = errCtr st.2.
Proof.
  intros st cs st'.
  assert (Hk : key st.1 ≠ "") by done.
  assert (Hd : NoDup (call_value whole_payload (key st.1) <$> cs)).
  { apply (bool_decide_unpack _). by vm_compute. }
  assert (Hn : Forall (λ c, seen st.1 !! call_value whole_payload (key st.1) c = None) cs).
  { repeat constructor. }
  assert (Hf : Forall (λ c, succeed c.1.1 true = None) cs).
  { repeat constructor. }
  pose proof (first_sightings_recorded whole_payload succeed cs st Hk Hd Hn Hf) as H.
  cbv zeta in H. destruct H as (_ & H).
  do 4 (split; [done|]). split; [by vm_compute|]. exact H.
Defined.

End memory.
